(** * Customer segmentation pipeline: RFM construction and cluster labelling

    A shallow embedding of [etl/build_rfm.py] and
    [model/train_cluster_model.py], followed by the properties of the
    pipeline that are established on it.

    Conventions of the embedding.
    - A pandas data frame is a list of rows; where the source aligns a
      boolean mask with a frame by index label, rows carry their label.
    - A nullable cell (NaN, NaT) is an [option]; [None] is the null.
    - Timestamps and time differences are integers counting nanoseconds,
      as pandas stores them in 64 bits; arithmetic that leaves the range
      of [Timestamp] or [Timedelta] raises, as it does in pandas.
    - Quantities, prices and scores are rationals.  Every finite float is
      a rational, so the comparisons of the source are rendered exactly;
      rounding of float sums and products is outside the embedding.
    - A string is a sequence of code points below 256; on these [lower]
      and [strip] are Python's [str.lower] and [str.strip].
    - A raised exception is the [Raise] branch of [result]. *)

From Stdlib Require Import ZArith QArith List String Ascii Bool Lia.
From Stdlib Require Import DecimalString DecimalPos DecimalZ OrdersEx.
From stdpp Require Import gmap strings list sorting.

Open Scope Z_scope.

(** ** Python and pandas primitives used by both scripts *)

Module Py.

Inductive exn : Type :=
  | ValueError (msg : string)
  | IndexError (msg : string)
  | TypeError (msg : string)
  | AttributeError (msg : string)
  | OutOfBoundsDatetime.

Inductive result (A : Type) : Type :=
  | Ok (a : A)
  | Raise (e : exn).
Arguments Ok {A} a.
Arguments Raise {A} e.

Definition bind {A B : Type} (m : result A) (f : A → result B) : result B :=
  match m with
  | Ok a => f a
  | Raise e => Raise e
  end.

#[global] Instance result_ret : MRet result := λ A a, Ok a.
#[global] Instance result_bind : MBind result := λ A B f m, bind m f.

(** A run that ends in an exception. *)
Definition fails {A : Type} (m : result A) : Prop := ∃ e, m = Raise e.

(** [for x in xs: acc = body(acc, x)], where the body may raise. *)
Fixpoint for_each {A S : Type} (body : S → A → result S) (xs : list A) (acc : S)
  : result S :=
  match xs with
  | [] => Ok acc
  | x :: xs' => acc' ← body acc x; for_each body xs' acc'
  end.

(** [[f(x) for x in xs]], where [f] may raise. *)
Fixpoint traverse {A B : Type} (f : A → result B) (xs : list A) : result (list B) :=
  match xs with
  | [] => Ok []
  | x :: xs' => y ← f x; ys ← traverse f xs'; Ok (y :: ys)
  end.

(** [range(a, b)] *)
Definition range (a b : Z) : list Z := seqZ a (b - a).

(** *** str methods *)

(** The code points below 256 that have a lower-case form: A to Z, and
    the accented capitals U+00C0 to U+00DE without the sign U+00D7. *)
Definition is_upper (c : ascii) : bool :=
  let n := nat_of_ascii c in
  ((65 <=? n)%nat && (n <=? 90)%nat) ||
  ((192 <=? n)%nat && (n <=? 214)%nat) ||
  ((216 <=? n)%nat && (n <=? 222)%nat).

Definition lower_char (c : ascii) : ascii :=
  if is_upper c then ascii_of_nat (nat_of_ascii c + 32) else c.

Fixpoint lower (s : string) : string :=
  match s with
  | EmptyString => EmptyString
  | String c s' => String (lower_char c) (lower s')
  end.

(** The white space that [str.strip()] removes, below 256: the controls
    U+0009 to U+000D and U+001C to U+001F, the space, U+0085 and the
    no-break space U+00A0. *)
Definition isspace (c : ascii) : bool :=
  let n := nat_of_ascii c in
  ((9 <=? n)%nat && (n <=? 13)%nat) || ((28 <=? n)%nat && (n <=? 32)%nat) ||
  (n =? 133)%nat || (n =? 160)%nat.

Fixpoint lstrip (s : string) : string :=
  match s with
  | EmptyString => EmptyString
  | String c s' => if isspace c then lstrip s' else s
  end.

Fixpoint rstrip (s : string) : string :=
  match s with
  | EmptyString => EmptyString
  | String c s' =>
      match rstrip s' with
      | EmptyString => if isspace c then EmptyString else String c EmptyString
      | r => String c r
      end
  end.

Definition strip (s : string) : string := rstrip (lstrip s).

(** [s.replace(c, "")] for a one-character [c] *)
Fixpoint remove_char (x : ascii) (s : string) : string :=
  match s with
  | EmptyString => EmptyString
  | String c s' =>
      if Ascii.eqb c x then remove_char x s' else String c (remove_char x s')
  end.

(** [sep.join(xs)] *)
Definition join (sep : string) (xs : list string) : string := String.concat sep xs.

Definition startswith (p s : string) : bool := String.prefix p s.

(** [repr(s)] for a str.  The quote is the apostrophe, or the double
    quote when the string holds an apostrophe and no double quote; the
    quote and the backslash are escaped, and so is every character that
    is not printable: the controls, U+007F to U+00A0 and the soft hyphen
    U+00AD. *)
Definition hex_digit (n : nat) : ascii :=
  ascii_of_nat (if (n <? 10)%nat then 48 + n else 87 + n).

Definition repr_char (quote : ascii) (c : ascii) : string :=
  let n := nat_of_ascii c in
  if Ascii.eqb c quote || Ascii.eqb c "\"%char then String "\" (String c "")
  else if (n =? 9)%nat then "\t"
  else if (n =? 10)%nat then "\n"
  else if (n =? 13)%nat then "\r"
  else if (n <? 32)%nat || ((127 <=? n)%nat && (n <=? 160)%nat) || (n =? 173)%nat
  then String "\" (String "x" (String (hex_digit (n / 16))
                                (String (hex_digit (n mod 16)) "")))
  else String c "".

Definition repr_str (s : string) : string :=
  let chars := list_ascii_of_string s in
  let apostrophe : ascii := "'"%char in
  let double_quote : ascii := ascii_of_nat 34 in
  let quote := if bool_decide (apostrophe ∈ chars ∧ double_quote ∉ chars)
               then double_quote else apostrophe in
  String quote (String.concat "" (repr_char quote <$> chars)) +:+ String quote "".

(** [str(n)] for an int *)
Definition str_int (n : Z) : string := NilZero.string_of_int (Z.to_int n).

(** Python compares strings code point by code point; on byte strings
    this is [String.leb]. *)
Definition str_le (a b : string) : Prop := String.leb a b = true.

#[global] Instance str_le_dec a b : Decision (str_le a b).
Proof. unfold str_le. apply _. Defined.

(** *** numeric comparisons on rationals *)

#[global] Instance Q_eq_dec : EqDecision Q.
Proof. solve_decision. Defined.

#[global] Instance Qlt_dec (x y : Q) : Decision (x < y)%Q.
Proof.
  destruct (Qlt_le_dec x y) as [H|H]; [left; exact H | right].
  apply Qle_not_lt, H.
Defined.

#[global] Instance Qle_dec (x y : Q) : Decision (x <= y)%Q.
Proof.
  destruct (Qlt_le_dec y x) as [H|H]; [right | left; exact H].
  apply Qlt_not_le, H.
Defined.

(** *** pandas Series reductions, all with [skipna=True] *)

Definition series_max (x : list (option Z)) : option Z :=
  foldr (λ o acc,
           match o, acc with
           | Some a, Some b => Some (Z.max a b)
           | Some a, None => Some a
           | None, _ => acc
           end) None x.

(** [Series.sum()], taken exactly. *)
Definition series_sum (x : list (option Q)) : Q :=
  foldr Qplus 0%Q (omap id x).

(** [Series.nunique()]: the number of distinct non-null values. *)
Definition nunique `{EqDecision A} (x : list (option A)) : nat :=
  length (remove_dups (omap id x)).

Definition count_occ_of `{EqDecision A} (v : A) (xs : list A) : nat :=
  length (filter (λ w, w = v) xs).

Definition max_count `{EqDecision A} (xs : list A) : nat :=
  max_list ((λ v, count_occ_of v xs) <$> xs).

(** [Series.mode()]: nulls dropped, the most frequent values, sorted. *)
Definition mode (x : list (option string)) : list string :=
  let vals := omap id x in
  merge_sort str_le
    (filter (λ v, count_occ_of v vals = max_count vals) (remove_dups vals)).

(** [name] labels several columns of a frame: [df[name]] is then a
    frame, not a column. *)
Definition repeated (name : string) (cols : list string) : bool :=
  bool_decide (1 < length (filter (λ c, c = name) cols))%nat.

(** [x.iloc[0]] *)
Definition iloc0 {A : Type} (x : list A) : result A :=
  match x with
  | v :: _ => Ok v
  | [] => Raise (IndexError "single positional indexer is out-of-bounds")
  end.

(** [Series.median()] of non-null values; [None] (NaN) on an empty
    series.  The mean of the two middle values is taken exactly. *)
Definition median (x : list Q) : option Q :=
  let s := merge_sort Qle x in
  let n := length s in
  if Nat.even n
  then match s !! (n / 2 - 1)%nat, s !! (n / 2)%nat with
       | Some a, Some b => Some (Qred ((a + b) / 2))
       | _, _ => None
       end
  else Qred <$> s !! (n / 2)%nat.

(** [Series.rank(method="dense")]: one plus the number of distinct values
    that come before [v] in the ranking order; a null has a null rank. *)
Definition dense_rank (ascending : bool) (col : list (option Q)) (v : option Q)
  : option nat :=
  match v with
  | None => None
  | Some q =>
      let before :=
        if ascending then filter (λ w, (w < q)%Q) (omap id col)
        else filter (λ w, (q < w)%Q) (omap id col) in
      Some (S (length (remove_dups (Qred <$> before))))
  end.

End Py.

Import Py.

(** ** etl/build_rfm.py *)

Module BuildRfm.

Definition REQUIRED_COLS : list string :=
  ["InvoiceNo"; "StockCode"; "Description"; "Quantity";
   "InvoiceDate"; "UnitPrice"; "CustomerID"; "Country"].

(** One line of the input table.  The header is kept apart ([columns]
    below); a row holds the cells found under the columns that the
    header resolves to.  A date or numeric cell is given by what
    [pd.to_datetime] / [pd.to_numeric] with [errors="coerce"] make of
    it: a value, or null when the cell is empty, does not parse or lies
    outside the range of [Timestamp].  An invoice cell [Some s] is a
    cell whose [str()] is [s]; [None] is a missing cell. *)
Record raw_row : Type := RawRow {
  raw_InvoiceNo : option string;
  raw_StockCode : option string;
  raw_Description : option string;
  raw_Quantity : option Q;
  raw_InvoiceDate : option Z;
  raw_UnitPrice : option Q;
  raw_CustomerID : option Z;
  raw_Country : option string
}.

Record raw_frame : Type := RawFrame {
  columns : list string;
  rows : list raw_row
}.

(** A row after the type conversions of [main]. *)
Record row : Type := Row {
  InvoiceNo : string;
  StockCode : option string;
  Description : option string;
  Quantity : option Q;
  InvoiceDate : option Z;
  UnitPrice : option Q;
  CustomerID : option Z;
  Country : option string
}.

#[global] Instance row_eq_dec : EqDecision row.
Proof. solve_decision. Defined.

(** A frame: rows with their index labels. *)
Abbreviation frame := (list (nat * row)).

(** *** _normalize_columns *)

Definition nl : string := String "010"%char EmptyString.

(** [str(c).strip().lower().replace(" ", "").replace("_", "")] *)
Definition column_key (c : string) : string :=
  remove_char "_" (remove_char " " (lower (strip c))).

(** [cand.lower().replace(" ", "").replace("_", "")] *)
Definition candidate_key (cand : string) : string :=
  remove_char "_" (remove_char " " (lower cand)).

(** The dict comprehension [{key(c): c for c in df.columns}]: a later
    column with the same key replaces an earlier one. *)
Definition build_lookup (cols : list string) : gmap string string :=
  foldl (λ m c, <[column_key c := c]> m) ∅ cols.

Fixpoint pick (lookup : gmap string string) (candidates : list string)
  : option string :=
  match candidates with
  | [] => None
  | cand :: rest =>
      match lookup !! candidate_key cand with
      | Some c => Some c
      | None => pick lookup rest
      end
  end.

Definition build_mapping (lookup : gmap string string)
  : list (string * option string) :=
  [ ("InvoiceNo", pick lookup ["InvoiceNo"; "Invoice"; "InvoiceNo."]);
    ("StockCode", pick lookup ["StockCode"; "Stock Code"]);
    ("Description", pick lookup ["Description"]);
    ("Quantity", pick lookup ["Quantity"; "Qty"]);
    ("InvoiceDate", pick lookup ["InvoiceDate"; "Invoice Date"]);
    ("UnitPrice", pick lookup ["UnitPrice"; "Price"; "Unit Price"]);
    ("CustomerID", pick lookup ["CustomerID"; "Customer ID"; "CustomerId"]);
    ("Country", pick lookup ["Country"]) ].

(** [[k for k, v in mapping.items() if v is None]] *)
Definition missing_fields (mapping : list (string * option string)) : list string :=
  (filter (λ kv, kv.2 = None) mapping).*1.

Definition schema_message (missing cols : list string) : string :=
  "Dataset missing required columns: " +:+ join ", " missing +:+ nl +:+
  "Found columns: " +:+ join ", " cols.

(** [{v: k for k, v in mapping.items()}] *)
Definition rename_dict (mapping : list (string * option string))
  : gmap (option string) string :=
  foldl (λ m kv, <[kv.2 := kv.1]> m) ∅ mapping.

Definition rename (ren : gmap (option string) string) (cols : list string)
  : list string :=
  (λ c, default c (ren !! Some c)) <$> cols.

Definition _normalize_columns (df : raw_frame) : result raw_frame :=
  let cols := strip <$> columns df in
  let lookup := build_lookup cols in
  let mapping := build_mapping lookup in
  let missing := missing_fields mapping in
  if bool_decide (missing ≠ [])
  then Raise (ValueError (schema_message missing cols))
  else Ok (RawFrame (rename (rename_dict mapping) cols) (rows df)).

(** *** main: type conversions *)

(** [astype(str)] on the invoice column.  A null cell becomes the text
    ["nan"], as in pandas 1.x and 2.x. *)
Definition astype_str (c : option string) : string := default "nan" c.

Definition convert (r : raw_row) : row :=
  {| InvoiceNo := astype_str (raw_InvoiceNo r);
     StockCode := raw_StockCode r;
     Description := raw_Description r;
     Quantity := raw_Quantity r;
     InvoiceDate := raw_InvoiceDate r;
     UnitPrice := raw_UnitPrice r;
     CustomerID := raw_CustomerID r;
     Country := raw_Country r |}.

(** The frame [df] of [main] after the conversions, under its default
    index 0, 1, 2, ... *)
Definition typed_frame (df_raw : raw_frame) : frame :=
  imap (λ i r, (i, convert r)) (rows df_raw).

(** *** main: cleaning *)

(** A boolean Series over the index of a frame. *)
Definition mask_of (p : row → bool) (df : frame) : gmap nat bool :=
  list_to_map ((λ ir, (ir.1, p ir.2)) <$> df).

(** [df[mask]]: the rows whose label the mask sends to True. *)
Definition bool_index (mask : gmap nat bool) (df : frame) : frame :=
  filter (λ ir, mask !! ir.1 = Some true) df.

Definition is_cancel_row (r : row) : bool := startswith "C" (InvoiceNo r).

(** [dropna(subset=["InvoiceDate", "CustomerID", "UnitPrice", "Quantity"])] *)
Definition dropna_subset (df : frame) : frame :=
  filter (λ ir, is_Some (InvoiceDate ir.2) ∧ is_Some (CustomerID ir.2) ∧
                is_Some (UnitPrice ir.2) ∧ is_Some (Quantity ir.2)) df.

(** [col > 0] on a nullable numeric cell; a null compares False. *)
Definition gt0 (c : option Q) : bool :=
  match c with
  | Some q => bool_decide (0 < q)%Q
  | None => false
  end.

Definition positive_row (r : row) : bool := gt0 (Quantity r) && gt0 (UnitPrice r).

Definition clean (df : frame) : frame :=
  let is_cancel := mask_of is_cancel_row df in
  let df_clean := dropna_subset df in
  let df_clean := bool_index (negb <$> is_cancel) df_clean in
  let df_clean := bool_index (mask_of positive_row df_clean) df_clean in
  df_clean.

(** [Quantity * UnitPrice].  The product is taken exactly; the source
    computes it in 64-bit floats or integers. *)
Definition LineTotal (r : row) : option Q :=
  match Quantity r, UnitPrice r with
  | Some q, Some p => Some (q * p)%Q
  | _, _ => None
  end.

(** *** main: RFM aggregation *)

Definition ns_per_day : Z := 86400 * 1000000000.

(** [Timestamp.max] and [Timedelta.max], in nanoseconds. *)
Definition Timestamp_max : Z := 2 ^ 63 - 1.
Definition Timedelta_max : Z := 2 ^ 63 - 1.

(** [t + timedelta(days=1)] on a [Timestamp] *)
Definition add_day (t : Z) : result Z :=
  if bool_decide (t + ns_per_day ≤ Timestamp_max)
  then Ok (t + ns_per_day)
  else Raise OutOfBoundsDatetime.

(** [s - t] on two [Timestamp]s: a [Timedelta], or the error "Result
    is too large for pandas.Timedelta" *)
Definition sub_timestamp (s t : Z) : result Z :=
  if bool_decide (- Timedelta_max ≤ s - t ≤ Timedelta_max)
  then Ok (s - t)
  else Raise OutOfBoundsDatetime.

(** [df_clean["InvoiceDate"].max() + timedelta(days=1)]; NaT on an empty
    frame. *)
Definition snapshot_of (df_clean : frame) : result (option Z) :=
  match series_max ((λ ir, InvoiceDate ir.2) <$> df_clean) with
  | Some m => s ← add_day m; Ok (Some s)
  | None => Ok None
  end.

(** [Timedelta.days] *)
Definition days (td : Z) : Z := td `div` ns_per_day.

(** [lambda x: int((snapshot_date - x.max()).days)] *)
Definition recency_of (snapshot_date : option Z) (x : list (option Z)) : result Z :=
  match snapshot_date, series_max x with
  | Some s, Some m => td ← sub_timestamp s m; Ok (days td)
  | _, _ => Raise (ValueError "cannot convert float NaN to integer")
  end.

(** [lambda x: x.mode().iloc[0] if len(x.mode()) else x.iloc[0]] *)
Definition country_of (x : list (option string)) : result (option string) :=
  match mode x with
  | m :: _ => Ok (Some m)
  | [] => iloc0 x
  end.

Record rfm_row : Type := RfmRow {
  rfm_CustomerID : Z;
  recency_days : Z;
  frequency_invoices : nat;
  monetary_value : Q;
  country : option string
}.

(** The keys of [groupby("CustomerID")]: distinct non-null ids, sorted. *)
Definition group_keys (df : frame) : list Z :=
  merge_sort Z.le (remove_dups (omap (λ ir, CustomerID ir.2) df)).

Definition get_group (df : frame) (k : Z) : list row :=
  (filter (λ ir, CustomerID ir.2 = Some k) df).*2.

Definition agg_group (snapshot_date : option Z) (k : Z) (g : list row)
  : result rfm_row :=
  r ← recency_of snapshot_date (InvoiceDate <$> g);
  c ← country_of (Country <$> g);
  Ok {| rfm_CustomerID := k;
        recency_days := r;
        frequency_invoices := nunique (Some ∘ InvoiceNo <$> g);
        monetary_value := series_sum (LineTotal <$> g);
        country := c |}.

(** Lines 128 to 139 on a frame each of whose names labels one column. *)
Definition build_rfm (df_clean : frame) : result (list rfm_row) :=
  snapshot_date ← snapshot_of df_clean;
  traverse (λ k, agg_group snapshot_date k (get_group df_clean k))
           (group_keys df_clean).

(** *** main: a header with a repeated name *)

(** After the renaming a required name can label several columns: the
    column picked for it and a column that bore the name already, or
    equal columns of the input.  [df[name]] is then a frame, not a
    column, and the first call that needs a column raises. *)

(** Lines 102 to 116.  [pd.to_datetime] and [pd.to_numeric] reject a
    frame, and a frame has no [.str]; the assignment of line 102 accepts
    one. *)
Definition convert_columns (cols : list string) : result () :=
  if repeated "InvoiceDate" cols
  then Raise (ValueError "cannot assemble with duplicate keys")
  else if repeated "CustomerID" cols || repeated "Quantity" cols ||
          repeated "UnitPrice" cols
  then Raise (TypeError "arg must be a list, tuple, 1-d array, or Series")
  else if repeated "InvoiceNo" cols
  then Raise (AttributeError "'DataFrame' object has no attribute 'str'")
  else Ok ().

(** The aggregation of the name "Country", the last of the four, when
    it labels several columns: the groups, or the empty result, are
    handled as a column. *)
Definition aggregate_country (cols : list string) (ngroups : nat) : result () :=
  if repeated "Country" cols
  then if bool_decide (ngroups = 0%nat)
       then Raise (AttributeError "'DataFrame' object has no attribute 'name'")
       else Raise (AttributeError "'DataFrame' object has no attribute 'dtype'")
  else Ok ().

(** *** main: outputs *)

(** The tables [main] writes with [to_csv(index=False)], under their
    names in the output directory.  A line of the transactions table is
    given by its cells under the eight required names and its line
    total. *)
Inductive table : Type :=
  | Transactions (body : list (row * option Q))
  | Customers (body : list rfm_row).

Definition tx_out : string := "transactions_clean.csv".
Definition rfm_out : string := "customers_rfm.csv".

(** [main] up to the two [to_csv] calls: the files written, or the
    exception raised before anything was written. *)
Definition main (df_raw : raw_frame) : result (list (string * table)) :=
  df_raw ← _normalize_columns df_raw;
  _ ← convert_columns (columns df_raw);
  let df := typed_frame df_raw in
  let df_clean := clean df in
  rfm ← build_rfm df_clean;
  _ ← aggregate_country (columns df_raw) (length rfm);
  Ok [ (tx_out, Transactions ((λ ir, (ir.2, LineTotal ir.2)) <$> df_clean));
       (rfm_out, Customers rfm) ].

End BuildRfm.

(** ** model/train_cluster_model.py *)

Module TrainCluster.

(** A line of [customers_rfm.csv]: the cells under the columns that
    [_normalize_columns] names CustomerID, Recency, Frequency, Monetary,
    one cell for each name. *)
Record rfm_record : Type := RfmRecord {
  CustomerID : Z;
  Recency : Q;
  Frequency : Q;
  Monetary : Q
}.

Record rfm_frame : Type := RfmFrame {
  columns : list string;
  rows : list rfm_record
}.

Record scored_record : Type := Scored {
  base : rfm_record;
  cluster : Z
}.

(** *** _normalize_columns *)

Definition column_renames (cols : list string) : gmap string string :=
  let ren : gmap string string := ∅ in
  let ren := if bool_decide ("recency_days" ∈ cols)
             then <["recency_days" := "Recency"]> ren else ren in
  let ren := if bool_decide ("frequency_invoices" ∈ cols)
             then <["frequency_invoices" := "Frequency"]> ren else ren in
  let ren := if bool_decide ("monetary_value" ∈ cols)
             then <["monetary_value" := "Monetary"]> ren else ren in
  let ren := if bool_decide ("customer_id" ∈ cols ∧ "CustomerID" ∉ cols)
             then <["customer_id" := "CustomerID"]> ren else ren in
  ren.

(** [repr] of a list of strings, as an f-string prints it. *)
Definition repr_list (xs : list string) : string :=
  "[" +:+ join ", " (repr_str <$> xs) +:+ "]".

Definition _normalize_columns (rfm : rfm_frame) : result rfm_frame :=
  let ren := column_renames (columns rfm) in
  let cols := (λ c, default c (ren !! c)) <$> columns rfm in
  let required := ["CustomerID"; "Recency"; "Frequency"; "Monetary"] in
  let missing := filter (λ c, c ∉ cols) required in
  if bool_decide (missing ≠ [])
  then Raise (ValueError ("RFM file missing required columns: " +:+
                repr_list missing +:+ ". Found: " +:+ repr_list cols))
  else Ok (RfmFrame cols (rows rfm)).

(** *** _segment_names_by_cluster *)

Record cluster_stats : Type := Stats {
  cl : Z;
  med_Recency : option Q;
  med_Frequency : option Q;
  med_Monetary : option Q;
  Customers : nat
}.

(** [groupby("cluster").agg(...)]: one line per distinct cluster id, in
    ascending order of the id. *)
Definition cluster_ids (rfm_scored : list scored_record) : list Z :=
  merge_sort Z.le (remove_dups (cluster <$> rfm_scored)).

Definition stats_of (rfm_scored : list scored_record) (c : Z) : cluster_stats :=
  let g := base <$> filter (λ s, cluster s = c) rfm_scored in
  {| cl := c;
     med_Recency := median (Recency <$> g);
     med_Frequency := median (Frequency <$> g);
     med_Monetary := median (Monetary <$> g);
     Customers := length g |}.

Definition group_stats (rfm_scored : list scored_record) : list cluster_stats :=
  stats_of rfm_scored <$> cluster_ids rfm_scored.

(** [rank <= 2]; a null rank compares False. *)
Definition rank_le2 (r : option nat) : bool :=
  match r with
  | Some n => (n <=? 2)%nat
  | None => false
  end.

Definition label_of (strong recent : bool) : string :=
  if strong && recent then "Champions"
  else if strong && negb recent then "Loyal (Re-engage)"
  else if negb strong && recent then "New / Promising"
  else "At Risk / Lost".

Definition heuristic_label (grp : list cluster_stats) (st : cluster_stats) : string :=
  let mon_rank := dense_rank false (med_Monetary <$> grp) (med_Monetary st) in
  let freq_rank := dense_rank false (med_Frequency <$> grp) (med_Frequency st) in
  let rec_rank := dense_rank true (med_Recency <$> grp) (med_Recency st) in
  let strong := rank_le2 mon_rank && rank_le2 freq_rank in
  let recent := rank_le2 rec_rank in
  label_of strong recent.

(** A Python dict of names by cluster id, in insertion order.
    [d[k] = v] replaces the value of a key already present, in place,
    and appends a new key at the end. *)
Fixpoint dict_set (k : Z) (v : string) (d : list (Z * string)) : list (Z * string) :=
  match d with
  | [] => [(k, v)]
  | (k', v') :: d' =>
      if decide (k' = k) then (k', v) :: d' else (k', v') :: dict_set k v d'
  end.

Definition dict_get (k : Z) (d : list (Z * string)) : option string :=
  (λ p, p.2.2) <$> list_find (λ kv, kv.1 = k) d.

(** The first loop: [names[int(cl)] = ...] for each line of [grp]. *)
Definition initial_names (grp : list cluster_stats) : list (Z * string) :=
  foldl (λ names st, dict_set (cl st) (heuristic_label grp st) names) [] grp.

Definition suffixed (nm : string) (c : Z) : string :=
  nm +:+ " (" +:+ str_int c +:+ ")".

(** The second loop, over the snapshot [list(names.items())]; the state
    is the dict [names] being rewritten and the dict [seen]. *)
Definition uniq_step (st : list (Z * string) * gmap string Z) (item : Z * string)
  : list (Z * string) * gmap string Z :=
  let '(names, seen) := st in
  let '(c, nm) := item in
  if bool_decide (is_Some (seen !! nm))
  then (dict_set c (suffixed nm c) names, seen)
  else (names, <[nm := c]> seen).

Definition make_unique (names : list (Z * string)) : list (Z * string) :=
  (foldl uniq_step (names, ∅) names).1.

Definition _segment_names_by_cluster (rfm_scored : list scored_record)
  : list (Z * string) :=
  make_unique (initial_names (group_stats rfm_scored)).

(** The aggregations of lines 77 to 82 take the four names as columns.
    A name that labels several columns after the renaming (as
    [Recency] does in a file that has both [recency_days] and
    [Recency]) gives a frame, and the aggregation of the group ends on
    it. *)
Definition aggregate_columns (cols : list string) : result () :=
  if repeated "Recency" cols || repeated "Frequency" cols ||
     repeated "Monetary" cols || repeated "CustomerID" cols
  then Raise (AttributeError "'DataFrame' object has no attribute 'name'")
  else Ok ().

(** *** main *)

Record args : Type := Args {
  k : Z;
  auto_k : bool
}.

(** The calls [main] makes into numpy and scikit-learn.  [features] is
    the scaled matrix [Xs]. *)
Class Sklearn (features : Type) : Type := {
  (** [StandardScaler().fit_transform(np.column_stack([np.log1p(...), ...]))] *)
  fit_transform : list (Q * Q * Q) → result features;
  (** [KMeans(n_clusters=k, random_state=42, n_init=10).fit_predict(Xs)] *)
  fit_predict : Z → features → result (list Z);
  (** [silhouette_score(Xs, labels)] *)
  silhouette_score : features → list Z → result Q
}.

Record outputs : Type := Outputs {
  scored : list (scored_record * option string);
  segment_name_map : list (Z * string);
  report_k : Z;
  report_silhouette : Q
}.

Section Main.
Context {features : Type} `{Sklearn features}.

(** One turn of [for k in range(2, 11)]. *)
Definition auto_k_step (Xs : features) (best : Z * Q) (k : Z) : result (Z * Q) :=
  labels ← fit_predict k Xs;
  score ← silhouette_score Xs labels;
  if bool_decide (best.2 < score)%Q then Ok (k, score) else Ok best.

(** Lines 137 to 151: the pair (best_k, best_score) after the search. *)
Definition select_k (a : args) (Xs : features) : result (Z * Q) :=
  let best_k := k a in
  let best_score := (-1)%Q in
  if auto_k a
  then for_each (auto_k_step Xs) (range 2 11) (best_k, best_score)
  else labels ← fit_predict best_k Xs;
       score ← silhouette_score Xs labels;
       Ok (best_k, score).

(** [rfm_scored["cluster"] = labels.astype(int)] *)
Definition assign_cluster (rs : list rfm_record) (labels : list Z)
  : result (list scored_record) :=
  if bool_decide (length labels = length rs)
  then Ok (zip_with Scored rs labels)
  else Raise (ValueError "Length of values does not match length of index").

Definition main (a : args) (rfm : rfm_frame) : result outputs :=
  rfm ← _normalize_columns rfm;
  Xs ← fit_transform ((λ r, (Recency r, Frequency r, Monetary r)) <$> rows rfm);
  best ← select_k a Xs;
  labels ← fit_predict best.1 Xs;
  rfm_scored ← assign_cluster (rows rfm) labels;
  _ ← aggregate_columns (columns rfm);
  let name_map := _segment_names_by_cluster rfm_scored in
  Ok {| scored := (λ s, (s, dict_get (cluster s) name_map)) <$> rfm_scored;
        segment_name_map := name_map;
        report_k := best.1;
        report_silhouette := best.2 |}.

End Main.

End TrainCluster.

(** ** Vocabulary of the statements *)

Module Props.
Import BuildRfm.

(** The three cleaning rules of [main], in the order the source applies
    them. *)
Inductive rule : Type := NotNull | NotCancelled | Positive.

#[global] Instance rule_eq_dec : EqDecision rule.
Proof. solve_decision. Defined.

(** One rule applied to the running frame [d], as [main] applies it: the
    cancellation mask is the one computed on the unfiltered frame [df],
    the positivity mask is computed on [d] itself. *)
Definition apply_rule (df : frame) (d : frame) (r : rule) : frame :=
  match r with
  | NotNull => dropna_subset d
  | NotCancelled => bool_index (negb <$> mask_of is_cancel_row df) d
  | Positive => bool_index (mask_of positive_row d) d
  end.

Definition clean_in_order (df : frame) (order : list rule) : frame :=
  foldl (apply_rule df) df order.

(** [col > 0] as a proposition. *)
Definition positive_cell (c : option Q) : Prop :=
  match c with
  | Some q => (0 < q)%Q
  | None => False
  end.

(** The conjunction a retained row satisfies. *)
Definition retained (r : row) : Prop :=
  is_Some (InvoiceDate r) ∧ is_Some (CustomerID r) ∧
  is_Some (Quantity r) ∧ is_Some (UnitPrice r) ∧
  startswith "C" (InvoiceNo r) = false ∧
  positive_cell (Quantity r) ∧ positive_cell (UnitPrice r).

#[global] Instance retained_dec r : Decision (retained r).
Proof.
  unfold retained, positive_cell.
  destruct (Quantity r), (UnitPrice r); apply _.
Defined.

(** What each rule asks of a row. *)
Definition rule_holds (ru : rule) (r : row) : Prop :=
  match ru with
  | NotNull => is_Some (InvoiceDate r) ∧ is_Some (CustomerID r) ∧
               is_Some (UnitPrice r) ∧ is_Some (Quantity r)
  | NotCancelled => is_cancel_row r = false
  | Positive => positive_row r = true
  end.

#[global] Instance rule_holds_dec ru r : Decision (rule_holds ru r).
Proof. destruct ru; simpl; apply _. Defined.

(** The dominant country in the words of the specification: the most
    frequent value, ties going to the value met first in row order. *)
Definition first_encountered_mode (xs : list string) : option string :=
  (λ p, p.2) <$> list_find (λ v, count_occ_of v xs = max_count xs) xs.

(** The candidate names [_normalize_columns] tries for each field, in
    the order of its [pick] calls. *)
Definition field_variants : list (string * list string) :=
  [ ("InvoiceNo", ["InvoiceNo"; "Invoice"; "InvoiceNo."]);
    ("StockCode", ["StockCode"; "Stock Code"]);
    ("Description", ["Description"]);
    ("Quantity", ["Quantity"; "Qty"]);
    ("InvoiceDate", ["InvoiceDate"; "Invoice Date"]);
    ("UnitPrice", ["UnitPrice"; "Price"; "Unit Price"]);
    ("CustomerID", ["CustomerID"; "Customer ID"; "CustomerId"]);
    ("Country", ["Country"]) ].

(** A candidate matches when its key equals the key of some column. *)
Definition matches (cols : list string) (cand : string) : Prop :=
  Exists (λ c, column_key c = candidate_key cand) cols.

(** A field resolves when one of its candidates matches. *)
Definition resolves (cols : list string) (variants : list string) : Prop :=
  Exists (matches cols) variants.

#[global] Instance matches_dec cols cand : Decision (matches cols cand).
Proof. unfold matches. apply _. Defined.

#[global] Instance resolves_dec cols vs : Decision (resolves cols vs).
Proof. unfold resolves. apply _. Defined.

(** The fields left without a column, in the order of the mapping. *)
Definition unresolved (cols : list string) : list string :=
  (filter (λ fv, ¬ resolves cols fv.2) field_variants).*1.

(** Normalisation in the words of the specification: every letter in
    lower case, spaces and underscores removed.  Characters are given
    by their code points. *)
Definition lower_case_code (n : nat) : nat :=
  if bool_decide ((65 ≤ n ≤ 90) ∨ (192 ≤ n ≤ 214) ∨ (216 ≤ n ≤ 222))%nat
  then (n + 32)%nat else n.

Definition normalize (s : string) : string :=
  string_of_list_ascii
    (filter (λ c, c ≠ " "%char ∧ c ≠ "_"%char)
       ((λ c, ascii_of_nat (lower_case_code (nat_of_ascii c)))
          <$> list_ascii_of_string s)).

(** The code points of white space: tab to carriage return, the four
    separators U+001C to U+001F, space, next line, no-break space. *)
Definition white_space : list nat :=
  [9; 10; 11; 12; 13; 28; 29; 30; 31; 32; 133; 160]%nat.

(** A string of white space only. *)
Definition blank (s : string) : Prop :=
  Forall (λ c, nat_of_ascii c ∈ white_space) (list_ascii_of_string s).

(** Each required name labels exactly one column. *)
Definition named_once (cols : list string) : Prop :=
  Forall (λ f, length (filter (λ c, c = f) cols) = 1%nat) REQUIRED_COLS.

#[global] Instance named_once_dec cols : Decision (named_once cols).
Proof. unfold named_once. apply _. Defined.

(** The dates of a frame. *)
Definition dates (df : frame) : list Z := omap (λ ir, InvoiceDate ir.2) df.

(** The dates of a frame fit the 64-bit time arithmetic of [main]: the
    day after any of them is a [Timestamp], and the time from any of
    them to the day after any other is a [Timedelta]. *)
Definition dates_in_range (df : frame) : Prop :=
  Forall (λ d, d + ns_per_day ≤ Timestamp_max ∧
               Forall (λ d', d + ns_per_day - d' ≤ Timedelta_max) (dates df))
         (dates df).

#[global] Instance dates_in_range_dec df : Decision (dates_in_range df).
Proof. unfold dates_in_range. apply _. Defined.

(** *** Sample inputs for etl/build_rfm.py *)

Definition header : list string :=
  ["Invoice"; "StockCode"; "Description"; "Quantity";
   "InvoiceDate"; "Price"; "Customer ID"; "Country"].

(** Midnight of the day [n] days after 1970-01-01. *)
Definition midnight (n : Z) : Z := n * ns_per_day.

Definition line (inv : option string) (qty price : Q) (day cust : Z) (ctry : string)
  : raw_row :=
  {| raw_InvoiceNo := inv;
     raw_StockCode := Some "85123A";
     raw_Description := Some "HEART T-LIGHT HOLDER";
     raw_Quantity := Some qty;
     raw_InvoiceDate := Some (midnight day);
     raw_UnitPrice := Some price;
     raw_CustomerID := Some cust;
     raw_Country := Some ctry |}.

(** Three customers buying on 2023-01-01, 2023-01-05 (two invoices) and
    2023-01-10, for 100, 50 and 200. *)
Definition three_customers : raw_frame :=
  {| columns := header;
     rows := [ line (Some "536365") 10 10 19358 12346 "United Kingdom";
               line (Some "536366") 5 5 19362 12347 "United Kingdom";
               line (Some "536367") 5 5 19362 12347 "France";
               line (Some "536368") 20 10 19367 12348 "Spain" ] |}.

(** Only cancellation invoices. *)
Definition only_cancellations : raw_frame :=
  {| columns := header;
     rows := [ line (Some "C536379") 1 (5 # 2) 19358 12346 "United Kingdom";
               line (Some "C536383") 2 (3 # 1) 19362 12347 "France" ] |}.

(** Rows without an invoice identifier next to an identified one. *)
Definition missing_invoices : raw_frame :=
  {| columns := header;
     rows := [ line None 10 10 19358 12346 "United Kingdom";
               line (Some "536366") 5 5 19359 12346 "United Kingdom";
               line None 3 2 19362 12346 "United Kingdom" ] |}.

(** One customer, two countries seen once each, the later one first in
    alphabetical order. *)
Definition tied_countries : raw_frame :=
  {| columns := header;
     rows := [ line (Some "536365") 1 1 19358 12346 "United Kingdom";
               line (Some "536366") 1 1 19359 12346 "France" ] |}.



(** A header in which two columns have the key of the invoice field,
    one of them under the canonical name. *)
Definition two_invoice_columns : raw_frame :=
  {| columns := ["InvoiceNo"; "Invoice_No"; "StockCode"; "Description"; "Quantity";
                 "InvoiceDate"; "Price"; "Customer ID"; "Country"];
     rows := [] |}.

(** A header that lacks the date and the customer columns. *)
Definition short_header : raw_frame :=
  {| columns := ["Invoice"; " Stock Code"; "Description"; "Qty"; "unit_price"; "Country"];
     rows := [] |}.

(** A header whose country column has a tab after its name. *)
Definition tab_header : raw_frame :=
  {| columns := ["Invoice"; "StockCode"; "Description"; "Quantity";
                 "InvoiceDate"; "Price"; "Customer ID";
                 "Country" +:+ String "009"%char EmptyString];
     rows := [] |}.

End Props.

Module ClusterProps.
Import TrainCluster.

(** The four labels of the heuristic. *)
Definition base_labels : list string :=
  ["Champions"; "Loyal (Re-engage)"; "New / Promising"; "At Risk / Lost"].

(** Each of the four names that [main] uses labels exactly one column. *)
Definition rfm_named_once (cols : list string) : Prop :=
  Forall (λ f, length (filter (λ c, c = f) cols) = 1%nat)
         ["CustomerID"; "Recency"; "Frequency"; "Monetary"].

#[global] Instance rfm_named_once_dec cols : Decision (rfm_named_once cols).
Proof. unfold rfm_named_once. apply _. Defined.

(** The label the heuristic computes for cluster [c]. *)
Definition computed_label (rfm_scored : list scored_record) (c : Z) : string :=
  heuristic_label (group_stats rfm_scored) (stats_of rfm_scored c).

(** The second loop of [_segment_names_by_cluster] read as a function of
    the items still to scan: an item whose name is in [seen] gets the
    suffixed name, another one keeps its name and enters [seen]. *)
Fixpoint relabel (items : list (Z * string)) (seen : gmap string Z)
  : list (Z * string) :=
  match items with
  | [] => []
  | (c, nm) :: rest =>
      if bool_decide (is_Some (seen !! nm))
      then (c, suffixed nm c) :: relabel rest seen
      else (c, nm) :: relabel rest (<[nm := c]> seen)
  end.

(** The auto-k loop when no call raises, [score k] being the
    silhouette score obtained for [k]. *)
Definition scan (score : Z → Q) (ks : list Z) (best : Z * Q) : Z * Q :=
  foldl (λ best k, if bool_decide (best.2 < score k)%Q then (k, score k) else best)
        best ks.

(** [k] is accepted, with silhouette score [s]. *)
Definition scored_at `{Sklearn features} (Xs : features) (k : Z) (s : Q) : Prop :=
  ∃ labels, fit_predict k Xs = Ok labels ∧ silhouette_score Xs labels = Ok s.

(** *** Sample inputs for model/train_cluster_model.py *)

(** A customer of cluster [c] with the given recency, frequency and
    monetary value. *)
Definition member (id c : Z) (r f m : Q) : scored_record :=
  {| base := {| CustomerID := id; Recency := r; Frequency := f; Monetary := m |};
     cluster := c |}.

(** Six customers in five clusters; clusters 0 and 1 rank first and
    second on all three medians. *)
Definition five_clusters : list scored_record :=
  [ member 1 0 1 10 100; member 2 1 2 9 90; member 3 2 3 8 80;
    member 4 3 4 7 70; member 5 4 50 1 1; member 6 2 5 5 5 ].

(** Silhouette scores 0.41 at k = 2, 0.55 at k = 3, 4, 5 and 0.30 above. *)
Definition example_scores (k : Z) : Q :=
  if bool_decide (k = 2) then 41 # 100
  else if bool_decide (k ≤ 5) then 55 # 100
  else 30 # 100.

(** A stand-in for numpy and scikit-learn, to run [main] on data.  The
    matrix is the list of its lines.  It keeps the input checks of the
    library: the scaler rejects an empty matrix, KMeans wants
    1 <= n_clusters <= n_samples, and the silhouette score wants a number
    of labels from 2 to n_samples - 1.  Labels are dealt round robin and
    the score is read from [example_scores]. *)
Definition sample_sklearn : Sklearn (list (Q * Q * Q)) :=
  {| fit_transform X :=
       if bool_decide (X = [])
       then Raise (ValueError "Found array with 0 sample(s)")
       else Ok X;
     fit_predict k Xs :=
       if bool_decide (1 ≤ k ≤ Z.of_nat (length Xs))
       then Ok (imap (λ i _, Z.of_nat i `mod` k) Xs)
       else Raise (ValueError "n_samples should be >= n_clusters");
     silhouette_score Xs labels :=
       let n_labels := Z.of_nat (length (remove_dups labels)) in
       if bool_decide (2 ≤ n_labels ≤ Z.of_nat (length Xs) - 1)
       then Ok (example_scores n_labels)
       else Raise (ValueError "Number of labels is out of range") |}.

(** Twelve customers, as [etl/build_rfm.py] writes them. *)
Definition twelve_customers : rfm_frame :=
  {| columns := ["CustomerID"; "recency_days"; "frequency_invoices";
                 "monetary_value"; "country"];
     rows := (λ i, {| CustomerID := 12346 + i;
                      Recency := inject_Z (1 + 3 * i);
                      Frequency := inject_Z (12 - i);
                      Monetary := inject_Z (1000 - 50 * i) |})
             <$> seqZ 0 12 |}.

End ClusterProps.

(** ** etl/build_rfm.py: the figures of the quality report *)

Module BuildRfmReport.
Import BuildRfm.

(** [int(col.isna().sum())] *)
Definition isna_sum {A : Type} (col : list (option A)) : nat :=
  length (filter (λ c, ¬ is_Some c) col).

(** [int(mask.sum())]: the number of labels the mask sends to True. *)
Definition mask_sum (mask : gmap nat bool) : nat :=
  length (filter (λ kv, kv.2 = true) (map_to_list mask)).

(** The numbers [main] prints into [data_quality_report.md]. *)
Record quality : Type := Quality {
  n_rows_raw : nat;
  null_invoice_date_raw : nat;
  null_customer_raw : nat;
  null_price_raw : nat;
  null_qty_raw : nat;
  cancellations : nat;
  clean_transactions : nat;
  rfm_customers : nat
}.

(** Lines 108 to 116 and 160 to 166 of [main]: the raw counters are
    taken on the frame before any filter. *)
Definition quality_of (df : frame) (df_clean : frame) (rfm : list rfm_row)
  : quality :=
  {| n_rows_raw := length df;
     null_invoice_date_raw := isna_sum ((λ ir, InvoiceDate ir.2) <$> df);
     null_customer_raw := isna_sum ((λ ir, CustomerID ir.2) <$> df);
     null_price_raw := isna_sum ((λ ir, UnitPrice ir.2) <$> df);
     null_qty_raw := isna_sum ((λ ir, Quantity ir.2) <$> df);
     cancellations := mask_sum (mask_of is_cancel_row df);
     clean_transactions := length df_clean;
     rfm_customers := length rfm |}.

(** [main] read for its report figures. *)
Definition main_quality (df_raw : raw_frame) : result quality :=
  df_raw ← _normalize_columns df_raw;
  _ ← convert_columns (columns df_raw);
  let df := typed_frame df_raw in
  let df_clean := clean df in
  rfm ← build_rfm df_clean;
  _ ← aggregate_country (columns df_raw) (length rfm);
  Ok (quality_of df df_clean rfm).

End BuildRfmReport.

(** ** etl/build_rfm.py: a further sample input *)

Module BuildRfmSamples.
Import BuildRfm Props.

(** A customer whose rows carry no country, next to one who has one. *)
Definition no_country : raw_frame :=
  {| columns := header;
     rows := [ {| raw_InvoiceNo := Some "536365"; raw_StockCode := Some "22752";
                  raw_Description := Some "SET 7 BABUSHKA NESTING BOXES";
                  raw_Quantity := Some 2%Q; raw_InvoiceDate := Some (midnight 19358);
                  raw_UnitPrice := Some 7%Q; raw_CustomerID := Some 12346;
                  raw_Country := None |};
               line (Some "536366") 1 1 19359 12347 "France" ] |}.

End BuildRfmSamples.

(** ** model/train_cluster_model.py: further sample inputs *)

Module ClusterSamples.
Import TrainCluster ClusterProps.

(** Five customers, as [etl/build_rfm.py] writes them. *)
Definition five_customers : rfm_frame :=
  {| columns := ["CustomerID"; "recency_days"; "frequency_invoices";
                 "monetary_value"; "country"];
     rows := (λ i, {| CustomerID := 12346 + i;
                      Recency := inject_Z (1 + 3 * i);
                      Frequency := inject_Z (12 - i);
                      Monetary := inject_Z (1000 - 50 * i) |})
             <$> seqZ 0 5 |}.

(** Ten customers, as [etl/build_rfm.py] writes them. *)
Definition ten_customers : rfm_frame :=
  {| columns := ["CustomerID"; "recency_days"; "frequency_invoices";
                 "monetary_value"; "country"];
     rows := (λ i, {| CustomerID := 12346 + i;
                      Recency := inject_Z (1 + 3 * i);
                      Frequency := inject_Z (12 - i);
                      Monetary := inject_Z (1000 - 50 * i) |})
             <$> seqZ 0 10 |}.

(** Four customers in two clusters. *)
Definition two_clusters : list scored_record :=
  [ member 1 0 1 10 100; member 2 1 40 2 20; member 3 0 3 8 80; member 4 1 60 1 5 ].

End ClusterSamples.

(** ** etl/convert_xlsx_to_csv.py *)

Module ConvertXlsx.

(** How a run ends: normally, or with the [StopIteration] that
    [next(rows)] raises on a sheet without any row. *)
Inductive outcome : Type := Done | StopIteration.

Section Convert.
Context {line : Type}.

(** The loop over the sheets.  A sheet is the list of its rows.
    [writer] tells whether the csv writer exists already; [out] is what
    has been written to the file so far. *)
Fixpoint write_sheets (sheets : list (list line)) (writer : bool) (out : list line)
  : list line * outcome :=
  match sheets with
  | [] => (out, Done)
  | ws :: rest =>
      match ws with
      | [] => (out, StopIteration)
      | header :: rows =>
          let out := if writer then out else out ++ [header] in
          write_sheets rest true (out ++ rows)
      end
  end.

(** [main]: the content of the output file and how the run ended. *)
Definition main (workbook : list (list line)) : list line * outcome :=
  write_sheets workbook false [].

End Convert.

End ConvertXlsx.

(** ** dash_app/app.py: the helpers that locate files and columns *)

Module DashApp.

Inductive lookup_result : Type :=
  | Found (p : string)
  | FileNotFoundError (msg : string).

(** [_first_existing]; [exists_] is the state of the file system. *)
Fixpoint first_existing_from (exists_ : string → bool) (all rest : list string)
  : lookup_result :=
  match rest with
  | [] => FileNotFoundError ("None of these files exist: " +:+ TrainCluster.repr_list all)
  | p :: rest' => if exists_ p then Found p else first_existing_from exists_ all rest'
  end.

Definition _first_existing (exists_ : string → bool) (paths : list string)
  : lookup_result :=
  first_existing_from exists_ paths paths.

(** [_normalize_cols] on the header. *)
Definition _normalize_cols (cols : list string) : list string := strip <$> cols.

(** [c.lower().replace(" ", "").replace("_", "")] *)
Definition norm_key (c : string) : string :=
  remove_char "_" (remove_char " " (lower c)).

(** [{key(c): c for c in df.columns}] *)
Definition cols_norm (cols : list string) : gmap string string :=
  foldl (λ m c, <[norm_key c := c]> m) ∅ cols.

Fixpoint coalesce_from (norm : gmap string string) (candidates : list string)
  : option string :=
  match candidates with
  | [] => None
  | cand :: rest =>
      match norm !! norm_key cand with
      | Some c => Some c
      | None => coalesce_from norm rest
      end
  end.

Definition _coalesce_column (cols : list string) (candidates : list string)
  : option string :=
  coalesce_from (cols_norm cols) candidates.

End DashApp.

(** ** Facts about etl/build_rfm.py *)

Section BuildRfmFacts.
Import BuildRfm Props.

(** *** Strings *)

Lemma append_cons (a : ascii) (s t : string) :
  String a s +:+ t = String a (s +:+ t).
Proof. reflexivity. Qed.

Lemma append_nil_l (t : string) : "" +:+ t = t.
Proof. reflexivity. Qed.

(** *** Cleaning *)

Lemma gt0_spec (c : option Q) : gt0 c = true ↔ positive_cell c.
Proof.
  destruct c as [q|]; simpl.
  - apply bool_decide_eq_true.
  - split; [discriminate | tauto].
Qed.

Lemma typed_frame_index (raw : raw_frame) :
  (typed_frame raw).*1 = seq 0 (length (rows raw)).
Proof.
  unfold typed_frame. rewrite fmap_imap.
  rewrite <- (list_fmap_id (seq 0 _)).
  apply (imap_seq_0 (rows raw) (λ j : nat, j)).
Qed.

Lemma typed_frame_NoDup (raw : raw_frame) : NoDup (typed_frame raw).*1.
Proof. rewrite typed_frame_index. apply NoDup_seq. Qed.

Lemma filter_ext_in {A} (P Q : A → Prop) `{∀ x, Decision (P x)}
    `{∀ x, Decision (Q x)} (l : list A) :
  (∀ x, x ∈ l → P x ↔ Q x) → filter P l = filter Q l.
Proof.
  induction l as [|a l IH]; intros Hpq; [reflexivity|].
  rewrite !filter_cons.
  assert (Ha : P a ↔ Q a) by (apply Hpq; left).
  rewrite IH by (intros x Hx; apply Hpq; right; exact Hx).
  destruct (decide (P a)), (decide (Q a)); tauto.
Qed.

Lemma filter_all {A} (P : A → Prop) `{∀ x, Decision (P x)} (l : list A) :
  (∀ x, x ∈ l → P x) → filter P l = l.
Proof.
  induction l as [|a l IH]; intros Hp; [reflexivity|].
  rewrite filter_cons, decide_True by (apply Hp; left).
  f_equal. apply IH. intros x Hx. apply Hp. right. exact Hx.
Qed.

(** A mask built on a frame with distinct labels, read at the label of
    one of its rows, is the predicate at that row. *)
Lemma mask_of_lookup (p : row → bool) (df : frame) i r :
  NoDup df.*1 → (i, r) ∈ df → mask_of p df !! i = Some (p r).
Proof.
  intros Hnd Hin. unfold mask_of.
  apply elem_of_list_to_map_1.
  - rewrite <- list_fmap_compose. exact Hnd.
  - apply (list_elem_of_fmap_2 (λ ir : nat * row, (ir.1, p ir.2)) df (i, r)), Hin.
Qed.

Lemma bool_index_mask (p : row → bool) (df d : frame) :
  NoDup df.*1 → d ⊆ df →
  bool_index (mask_of p df) d = filter (λ ir, p ir.2 = true) d.
Proof.
  intros Hnd Hsub. unfold bool_index.
  apply filter_ext_in. intros [i r] Hin. simpl.
  rewrite (mask_of_lookup p df i r Hnd (Hsub _ Hin)).
  split; [intros [= ->]; reflexivity | intros ->; reflexivity].
Qed.

Lemma bool_index_not_mask (p : row → bool) (df d : frame) :
  NoDup df.*1 → d ⊆ df →
  bool_index (negb <$> mask_of p df) d = filter (λ ir, p ir.2 = false) d.
Proof.
  intros Hnd Hsub. unfold bool_index.
  apply filter_ext_in. intros [i r] Hin. simpl.
  rewrite lookup_fmap, (mask_of_lookup p df i r Hnd (Hsub _ Hin)). simpl.
  destruct (p r); simpl; split; intros; congruence.
Qed.

Lemma apply_rule_filter (df d : frame) (ru : rule) :
  NoDup df.*1 → d `sublist_of` df →
  apply_rule df d ru = filter (λ ir, rule_holds ru ir.2) d.
Proof.
  intros Hnd Hsub. destruct ru; simpl.
  - reflexivity.
  - apply bool_index_not_mask; [exact Hnd|].
    intros x Hx. eapply elem_of_sublist; eauto.
  - apply bool_index_mask.
    + eapply sublist_NoDup; [exact Hnd|]. apply fmap_sublist, Hsub.
    + intros x Hx; exact Hx.
Qed.

Lemma clean_in_order_filter (df : frame) (order : list rule) :
  NoDup df.*1 →
  clean_in_order df order = filter (λ ir, Forall (λ ru, rule_holds ru ir.2) order) df.
Proof.
  intros Hnd. unfold clean_in_order.
  assert (Hgen : ∀ d, d `sublist_of` df →
            foldl (apply_rule df) d order
            = filter (λ ir, Forall (λ ru, rule_holds ru ir.2) order) d).
  { induction order as [|ru order IH]; intros d Hd; simpl.
    - symmetry. apply filter_all. intros; constructor.
    - rewrite apply_rule_filter by assumption.
      rewrite IH by (etrans; [apply sublist_filter | exact Hd]).
      rewrite list_filter_filter. apply list_filter_iff.
      intros ir. rewrite Forall_cons. tauto. }
  apply Hgen. reflexivity.
Qed.

Lemma clean_eq_in_order (df : frame) :
  clean df = clean_in_order df [NotNull; NotCancelled; Positive].
Proof. reflexivity. Qed.

Lemma all_rules_retained (r : row) :
  Forall (λ ru, rule_holds ru r) [NotNull; NotCancelled; Positive] ↔ retained r.
Proof.
  rewrite !Forall_cons, Forall_nil. unfold retained; simpl.
  unfold positive_row, is_cancel_row. rewrite andb_true_iff, !gt0_spec.
  split.
  - intros ((Hd & Hc & Hp & Hq) & Hn & (Hq' & Hp') & _). tauto.
  - tauto.
Qed.

Lemma clean_filter (df : frame) :
  NoDup df.*1 → clean df = filter (λ ir, retained ir.2) df.
Proof.
  intros Hnd. rewrite clean_eq_in_order, clean_in_order_filter by exact Hnd.
  apply list_filter_iff. intros ir. apply all_rules_retained.
Qed.

(** C5. The cleaned set is the input frame filtered by one conjunction:
    a row is in it exactly when it is a row of the frame whose date,
    customer id, quantity and unit price are non-null, whose invoice
    identifier does not start with the cancellation prefix, and whose
    quantity and unit price are positive.  Rows pass unchanged and in
    their order, and applying the three rules in any order gives the
    same set. *)
Theorem clean_retains_exactly (raw : raw_frame) :
  let df := typed_frame raw in
  clean df = filter (λ ir, retained ir.2) df
  ∧ (∀ i r, (i, r) ∈ clean df ↔ (i, r) ∈ df ∧ retained r)
  ∧ (∀ order, order ≡ₚ [NotNull; NotCancelled; Positive] →
       clean_in_order df order = clean df).
Proof.
  intros df. pose proof (typed_frame_NoDup raw) as Hnd. fold df in Hnd.
  split; [apply clean_filter, Hnd|]. split.
  - intros i r. rewrite clean_filter by exact Hnd.
    rewrite list_elem_of_filter. simpl. tauto.
  - intros order Hperm.
    rewrite clean_eq_in_order, !clean_in_order_filter by exact Hnd.
    apply list_filter_iff. intros ir. rewrite Hperm. reflexivity.
Qed.

Lemma clean_retains_exactly_witness :
  clean_in_order (typed_frame three_customers) [Positive; NotNull; NotCancelled]
  = clean (typed_frame three_customers).
Proof.
  apply (proj2 (proj2 (clean_retains_exactly three_customers))).
  apply (Permutation_cons_append [NotNull; NotCancelled] Positive).
Defined.


(** *** The error monad *)

Lemma traverse_ok {A B} (f : A → result B) (xs : list A) :
  (∀ x, x ∈ xs → ∃ y, f x = Ok y) → ∃ ys, traverse f xs = Ok ys.
Proof.
  induction xs as [|x xs IH]; intros Hf; simpl; [eauto|].
  destruct (Hf x) as [y Hy]; [left|]. rewrite Hy. simpl.
  destruct IH as [ys Hys]; [intros; apply Hf; right; assumption|].
  rewrite Hys. simpl. eauto.
Qed.

Lemma traverse_Forall2 {A B} (f : A → result B) (xs : list A) (ys : list B) :
  traverse f xs = Ok ys → Forall2 (λ x y, f x = Ok y) xs ys.
Proof.
  revert ys. induction xs as [|x xs IH]; intros ys; simpl.
  - intros [= <-]. constructor.
  - destruct (f x) as [y|e] eqn:Hy; simpl; [|discriminate].
    destruct (traverse f xs) as [ys'|e] eqn:Hys; simpl; [|discriminate].
    intros [= <-]. constructor; [exact Hy | apply IH; reflexivity].
Qed.

(** *** Series reductions *)

Lemma series_max_spec (x : list (option Z)) (M : Z) :
  series_max x = Some M →
  Some M ∈ x ∧ ∀ d, Some d ∈ x → d ≤ M.
Proof.
  revert M. induction x as [|o x IH]; intros M; simpl; [discriminate|].
  destruct o as [a|].
  - destruct (series_max x) as [b|] eqn:Hb.
    + intros [= <-]. destruct (IH b eq_refl) as [Hin Hle]. split.
      * destruct (Z.max_spec a b) as [[_ ->]|[_ ->]]; [right; exact Hin | left].
      * intros d [[= ->]|Hd]%elem_of_cons; [lia|]. specialize (Hle d Hd). lia.
    + intros [= <-]. split; [left|].
      intros d [[= ->]|Hd]%elem_of_cons; [lia|].
      exfalso. clear IH. induction x as [|o x IHx]; [inversion Hd|].
      simpl in Hb. destruct o; [destruct (series_max x); discriminate|].
      apply elem_of_cons in Hd as [[=]|Hd]. auto.
  - intros HM. destruct (IH M HM) as [Hin Hle]. split; [right; exact Hin|].
    intros d [[=]|Hd]%elem_of_cons. auto.
Qed.

Lemma series_max_is_Some (x : list (option Z)) d :
  Some d ∈ x → is_Some (series_max x).
Proof.
  induction x as [|o x IH]; [inversion 1|].
  intros [<-|Hd]%elem_of_cons; simpl.
  - destruct (series_max x); eauto.
  - destruct o, (IH Hd) as [b ->]; eauto.
Qed.

(** *** groupby *)

Lemma group_keys_spec (df : frame) (k : Z) :
  k ∈ group_keys df ↔ ∃ ir, ir ∈ df ∧ CustomerID ir.2 = Some k.
Proof.
  unfold group_keys. rewrite merge_sort_Permutation, elem_of_remove_dups.
  rewrite list_elem_of_omap. reflexivity.
Qed.

Lemma group_keys_NoDup (df : frame) : NoDup (group_keys df).
Proof.
  unfold group_keys. rewrite merge_sort_Permutation. apply NoDup_remove_dups.
Qed.

Lemma group_keys_sorted (df : frame) : Sorted Z.le (group_keys df).
Proof. apply (Sorted_merge_sort Z.le). Qed.

Lemma get_group_spec (df : frame) (k : Z) (r : row) :
  r ∈ get_group df k ↔ ∃ i, (i, r) ∈ df ∧ CustomerID r = Some k.
Proof.
  unfold get_group. rewrite list_elem_of_fmap. split.
  - intros ([i r'] & -> & [Hk Hin]%list_elem_of_filter). eauto.
  - intros (i & Hin & Hk). exists (i, r). split; [reflexivity|].
    apply list_elem_of_filter. split; assumption.
Qed.


(** *** The aggregation on a cleaned frame *)

Lemma clean_retained (raw : raw_frame) i r :
  (i, r) ∈ clean (typed_frame raw) → retained r.
Proof.
  rewrite clean_filter by apply typed_frame_NoDup.
  intros [Hr _]%list_elem_of_filter. exact Hr.
Qed.

Lemma agg_group_inv (s : option Z) (k : Z) (g : list row) (x : rfm_row) :
  agg_group s k g = Ok x →
  rfm_CustomerID x = k ∧
  recency_of s (InvoiceDate <$> g) = Ok (recency_days x) ∧
  country_of (Country <$> g) = Ok (country x) ∧
  frequency_invoices x = nunique (Some ∘ InvoiceNo <$> g) ∧
  monetary_value x = series_sum (LineTotal <$> g).
Proof.
  unfold agg_group.
  destruct (recency_of s (InvoiceDate <$> g)) as [rc|e]; simpl; [|discriminate].
  destruct (country_of (Country <$> g)) as [c|e]; simpl; [|discriminate].
  intros [= <-]. simpl. auto.
Qed.

Lemma build_rfm_rows (dc : frame) (rfm : list rfm_row) :
  build_rfm dc = Ok rfm →
  ∃ s, snapshot_of dc = Ok s ∧
       Forall2 (λ k x, agg_group s k (get_group dc k) = Ok x) (group_keys dc) rfm.
Proof.
  unfold build_rfm. destruct (snapshot_of dc) as [s|e]; simpl; [|discriminate].
  intros H. exists s. split; [reflexivity|]. apply traverse_Forall2, H.
Qed.

Lemma build_rfm_customers (dc : frame) (rfm : list rfm_row) :
  build_rfm dc = Ok rfm → rfm_CustomerID <$> rfm = group_keys dc.
Proof.
  intros (s & _ & H)%build_rfm_rows.
  induction H as [|k x ks xs Hx _ IH]; [reflexivity|].
  simpl. f_equal; [|exact IH]. apply agg_group_inv in Hx. tauto.
Qed.

Lemma build_rfm_row (dc : frame) (rfm : list rfm_row) (x : rfm_row) :
  build_rfm dc = Ok rfm → x ∈ rfm →
  ∃ s, snapshot_of dc = Ok s ∧
       rfm_CustomerID x ∈ group_keys dc ∧
       agg_group s (rfm_CustomerID x) (get_group dc (rfm_CustomerID x)) = Ok x.
Proof.
  intros (s & Hs & H)%build_rfm_rows Hx. exists s. split; [exact Hs|].
  induction H as [|k y ks xs Hy _ IH]; [inversion Hx|].
  apply elem_of_cons in Hx as [->|Hx].
  - pose proof (agg_group_inv _ _ _ _ Hy) as (-> & _). split; [left | exact Hy].
  - destruct (IH Hx) as [Hin Hagg]. split; [right; exact Hin | exact Hagg].
Qed.

Lemma build_rfm_has_customer (dc : frame) (rfm : list rfm_row) (k : Z) :
  build_rfm dc = Ok rfm → k ∈ group_keys dc →
  ∃ x, x ∈ rfm ∧ rfm_CustomerID x = k.
Proof.
  intros Hrfm Hk. rewrite <- (build_rfm_customers dc rfm Hrfm) in Hk.
  apply list_elem_of_fmap in Hk as (x & -> & Hx). eauto.
Qed.

Lemma country_of_ok (x : list (option string)) :
  x ≠ [] → ∃ c, country_of x = Ok c.
Proof.
  intros Hx. unfold country_of. destruct (mode x); [|eauto].
  destruct x; [congruence | simpl; eauto].
Qed.

Lemma group_of_key (raw : raw_frame) (k : Z) :
  let dc := clean (typed_frame raw) in
  k ∈ group_keys dc →
  ∃ r d, r ∈ get_group dc k ∧ InvoiceDate r = Some d.
Proof.
  intros dc [[i r] [Hin Hk]]%group_keys_spec. simpl in Hk.
  destruct (clean_retained raw i r Hin) as ([d Hd] & _).
  exists r, d. split; [|exact Hd]. apply get_group_spec. eauto.
Qed.

(** *** Time arithmetic *)

Lemma Timedelta_max_pos : 0 < Timedelta_max.
Proof. reflexivity. Qed.

Lemma ns_per_day_pos : 0 < ns_per_day.
Proof. reflexivity. Qed.

Lemma elem_of_dates (df : frame) (d : Z) :
  d ∈ dates df ↔ ∃ ir, ir ∈ df ∧ InvoiceDate ir.2 = Some d.
Proof. unfold dates. apply list_elem_of_omap. Qed.

Lemma dates_in_range_spec (df : frame) (d d' : Z) :
  dates_in_range df → d ∈ dates df → d' ∈ dates df →
  d + ns_per_day ≤ Timestamp_max ∧ d + ns_per_day - d' ≤ Timedelta_max.
Proof.
  unfold dates_in_range. rewrite Forall_forall. intros H Hd Hd'.
  destruct (H d Hd) as [H1 H2]. split; [exact H1|].
  rewrite Forall_forall in H2. apply H2, Hd'.
Qed.

Lemma series_max_date (df : frame) (M : Z) :
  series_max ((λ ir, InvoiceDate ir.2) <$> df) = Some M →
  M ∈ dates df ∧ ∀ d, d ∈ dates df → d ≤ M.
Proof.
  intros [Hin Hmax]%series_max_spec. split.
  - apply elem_of_dates. apply list_elem_of_fmap in Hin as (ir & E & Hir). eauto.
  - intros d (ir & Hir & Hd)%elem_of_dates. apply Hmax. rewrite <- Hd.
    apply (list_elem_of_fmap_2 (λ ir, InvoiceDate ir.2) df ir), Hir.
Qed.

Lemma group_max_date (df : frame) (k m : Z) :
  series_max (InvoiceDate <$> get_group df k) = Some m →
  (∃ ir, ir ∈ df ∧ CustomerID ir.2 = Some k ∧ InvoiceDate ir.2 = Some m) ∧
  (∀ ir d, ir ∈ df → CustomerID ir.2 = Some k → InvoiceDate ir.2 = Some d → d ≤ m).
Proof.
  intros [Hin Hmax]%series_max_spec. split.
  - apply list_elem_of_fmap in Hin as (r & E & Hr).
    apply get_group_spec in Hr as (i & Hir & Hk). exists (i, r). auto.
  - intros [i r] d Hir Hk Hd. simpl in *. apply Hmax. rewrite <- Hd.
    apply list_elem_of_fmap_2, get_group_spec. eauto.
Qed.

Lemma snapshot_of_inv (dc : frame) (s : Z) :
  snapshot_of dc = Ok (Some s) →
  ∃ M, series_max ((λ ir, InvoiceDate ir.2) <$> dc) = Some M ∧
       s = M + ns_per_day ∧ s ≤ Timestamp_max.
Proof.
  unfold snapshot_of, add_day.
  destruct (series_max _) as [M|]; [|discriminate].
  case_bool_decide as Hb; simpl; [|discriminate].
  intros [= <-]. eauto.
Qed.

Lemma snapshot_in_range (dc : frame) (M : Z) :
  series_max ((λ ir, InvoiceDate ir.2) <$> dc) = Some M →
  dates_in_range dc →
  snapshot_of dc = Ok (Some (M + ns_per_day)).
Proof.
  intros HM Hr. destruct (series_max_date dc M HM) as [Hin _].
  destruct (dates_in_range_spec dc M M Hr Hin Hin) as [Hle _].
  unfold snapshot_of, add_day. rewrite HM.
  rewrite bool_decide_eq_true_2 by exact Hle. reflexivity.
Qed.

Lemma snapshot_empty (dc : frame) :
  series_max ((λ ir, InvoiceDate ir.2) <$> dc) = None → snapshot_of dc = Ok None.
Proof. intros H. unfold snapshot_of. rewrite H. reflexivity. Qed.

Lemma recency_of_inv (so : option Z) (x : list (option Z)) (r : Z) :
  recency_of so x = Ok r →
  ∃ s m, so = Some s ∧ series_max x = Some m ∧
         s - m ≤ Timedelta_max ∧ r = (s - m) `div` ns_per_day.
Proof.
  unfold recency_of, sub_timestamp.
  destruct so as [s|]; [|discriminate].
  destruct (series_max x) as [m|]; [|discriminate].
  case_bool_decide as Hb; simpl; [|discriminate].
  intros [= <-]. exists s, m. unfold days. repeat split; auto. lia.
Qed.

Lemma recency_in_range (s m : Z) (x : list (option Z)) :
  series_max x = Some m → m ≤ s → s - m ≤ Timedelta_max →
  recency_of (Some s) x = Ok ((s - m) `div` ns_per_day).
Proof.
  intros Hm Hle Hmax. unfold recency_of, sub_timestamp. rewrite Hm.
  pose proof Timedelta_max_pos.
  rewrite bool_decide_eq_true_2 by lia. reflexivity.
Qed.

(** On a cleaned frame whose dates are in range no aggregate raises. *)
Lemma build_rfm_in_range (raw : raw_frame) :
  dates_in_range (clean (typed_frame raw)) →
  ∃ rfm, build_rfm (clean (typed_frame raw)) = Ok rfm.
Proof.
  set (dc := clean (typed_frame raw)). intros Hr. unfold build_rfm.
  destruct (series_max ((λ ir, InvoiceDate ir.2) <$> dc)) as [M|] eqn:HM.
  - rewrite (snapshot_in_range dc M HM Hr). simpl.
    destruct (series_max_date dc M HM) as [HMin HMmax].
    apply traverse_ok. intros k Hk.
    destruct (group_of_key raw k Hk) as (r & d & Hrin & Hd). fold dc in Hrin.
    destruct (series_max_is_Some (InvoiceDate <$> get_group dc k) d) as [m Hm].
    { rewrite <- Hd. apply list_elem_of_fmap_2, Hrin. }
    destruct (country_of_ok (Country <$> get_group dc k)) as [c Hc].
    { intros E%fmap_nil_inv. rewrite E in Hrin. inversion Hrin. }
    destruct (group_max_date dc k m Hm) as [(ir & Hir & _ & Hdm) _].
    assert (Hmin : m ∈ dates dc) by (apply elem_of_dates; eauto).
    destruct (dates_in_range_spec dc M m Hr HMin Hmin) as [_ Hspan].
    pose proof (HMmax m Hmin). pose proof ns_per_day_pos.
    unfold agg_group.
    rewrite (recency_in_range (M + ns_per_day) m _ Hm) by lia.
    simpl. rewrite Hc. simpl. eauto.
  - rewrite (snapshot_empty dc HM). simpl.
    apply traverse_ok. intros k Hk. exfalso.
    destruct (group_of_key raw k Hk) as (r & d & Hrin & Hd). fold dc in Hrin.
    apply get_group_spec in Hrin as (i & Hir & _).
    destruct (series_max_is_Some ((λ ir, InvoiceDate ir.2) <$> dc) d) as [M HM'].
    { rewrite <- Hd. apply (list_elem_of_fmap_2 (λ ir, InvoiceDate ir.2) dc (i, r)), Hir. }
    congruence.
Qed.

(** *** A header with each required name once *)

Lemma named_once_not_repeated (cols : list string) (f : string) :
  named_once cols → f ∈ REQUIRED_COLS → repeated f cols = false.
Proof.
  unfold named_once. rewrite Forall_forall. intros H Hf.
  unfold repeated. rewrite (H f Hf). reflexivity.
Qed.

Lemma named_once_columns (cols : list string) :
  named_once cols →
  convert_columns cols = Ok () ∧ ∀ n, aggregate_country cols n = Ok ().
Proof.
  intros H. unfold convert_columns, aggregate_country.
  rewrite !(named_once_not_repeated cols _ H)
    by (apply list_elem_of_In; vm_compute; tauto).
  split; [reflexivity | intros n; reflexivity].
Qed.

(** [main] on a header that resolves, each required name labelling one
    column: the cleaning and the aggregation decide the outcome. *)
Lemma main_named_once (raw raw' : raw_frame) :
  _normalize_columns raw = Ok raw' →
  named_once (columns raw') →
  main raw
  = (rfm ← build_rfm (clean (typed_frame raw'));
     Ok [ (tx_out, Transactions ((λ ir, (ir.2, LineTotal ir.2))
                                   <$> clean (typed_frame raw')));
          (rfm_out, Customers rfm) ]).
Proof.
  intros Hn [Hc Ha]%named_once_columns. unfold main. rewrite Hn. simpl.
  rewrite Hc. simpl.
  destruct (build_rfm (clean (typed_frame raw'))) as [rfm|e]; simpl; [|reflexivity].
  rewrite Ha. reflexivity.
Qed.


(** *** Snapshot date and recency *)




(** The scenario of the specification: recencies 10, 6 and 1. *)
Example three_customers_rfm :
  build_rfm (clean (typed_frame three_customers)) =
  Ok [ RfmRow 12346 10 1 100 (Some "United Kingdom");
       RfmRow 12347 6 2 50 (Some "France");
       RfmRow 12348 1 1 200 (Some "Spain") ].
Proof. vm_compute. reflexivity. Qed.


(** *** An empty cleaned set *)

Lemma no_customers_no_rows (raw : raw_frame) :
  build_rfm (clean (typed_frame raw)) = Ok [] → clean (typed_frame raw) = [].
Proof.
  intros H%build_rfm_customers. simpl in H.
  destruct (clean (typed_frame raw)) as [|[i r] dc] eqn:Hdc; [reflexivity|].
  exfalso. destruct (clean_retained raw i r) as (_ & [k Hk] & _).
  { rewrite Hdc. left. }
  assert (Hin : k ∈ group_keys ((i, r) :: dc)).
  { apply group_keys_spec. exists (i, r). split; [left | exact Hk]. }
  rewrite <- H in Hin. inversion Hin.
Qed.

(** C1, as the code has it. When the header resolves with each
    required name labelling one column, and cleaning removes every row
    or the aggregation yields no customer, [main] raises nothing: it
    writes a cleaned-transactions table and an RFM table, both empty. *)
Theorem empty_clean_writes_empty_tables (raw raw' : raw_frame) :
  _normalize_columns raw = Ok raw' →
  named_once (columns raw') →
  clean (typed_frame raw') = [] ∨ build_rfm (clean (typed_frame raw')) = Ok [] →
  main raw = Ok [(tx_out, Transactions []); (rfm_out, Customers [])].
Proof.
  intros Hn Hcols Hempty.
  assert (Hc : clean (typed_frame raw') = []).
  { destruct Hempty as [Hc|Hr]; [exact Hc | apply no_customers_no_rows, Hr]. }
  rewrite (main_named_once raw raw' Hn Hcols), Hc. reflexivity.
Qed.

Lemma empty_clean_writes_empty_tables_witness :
  main only_cancellations = Ok [(tx_out, Transactions []); (rfm_out, Customers [])].
Proof.
  apply (empty_clean_writes_empty_tables only_cancellations
           (RawFrame REQUIRED_COLS (rows only_cancellations))).
  - vm_compute. reflexivity.
  - apply (bool_decide_unpack _). vm_compute. exact I.
  - left. vm_compute. reflexivity.
Defined.

(** C1 as stated fails: a dataset of cancellation invoices only is
    cleaned to nothing, and the run ends normally with two empty tables. *)
Lemma only_cancellations_succeeds :
  ∃ raw', _normalize_columns only_cancellations = Ok raw' ∧
          clean (typed_frame raw') = [] ∧
          main only_cancellations
            = Ok [(tx_out, Transactions []); (rfm_out, Customers [])] ∧
          ¬ fails (main only_cancellations).
Proof.
  exists (RawFrame REQUIRED_COLS (rows only_cancellations)).
  split; [vm_compute; reflexivity|]. split; [vm_compute; reflexivity|].
  assert (Hm : main only_cancellations
               = Ok [(tx_out, Transactions []); (rfm_out, Customers [])])
    by (vm_compute; reflexivity).
  split; [exact Hm|]. intros [e He]. rewrite Hm in He. discriminate He.
Qed.


(** *** Rows without an invoice identifier *)

Lemma omap_id_Some {A B} (f : A → B) (l : list A) :
  omap id (Some ∘ f <$> l) = f <$> l.
Proof. induction l as [|a l IH]; [reflexivity|]. simpl. f_equal. exact IH. Qed.

Lemma remove_dups_split `{EqDecision A} (v : A) (l : list A) :
  v ∈ l →
  length (remove_dups l) = S (length (remove_dups (filter (λ w, w ≠ v) l))).
Proof.
  intros Hv.
  change (S (length (remove_dups (filter (λ w, w ≠ v) l))))
    with (length (v :: remove_dups (filter (λ w, w ≠ v) l))).
  apply Permutation_length, NoDup_Permutation.
  - apply NoDup_remove_dups.
  - constructor; [|apply NoDup_remove_dups].
    rewrite elem_of_remove_dups, list_elem_of_filter. tauto.
  - intros w. rewrite elem_of_cons, !elem_of_remove_dups, list_elem_of_filter.
    destruct (decide (w = v)) as [->|Hne]; tauto.
Qed.

Lemma frequency_is_distinct_invoices (dc : frame) rfm x :
  build_rfm dc = Ok rfm → x ∈ rfm →
  frequency_invoices x
  = length (remove_dups (InvoiceNo <$> get_group dc (rfm_CustomerID x))).
Proof.
  intros Hrfm Hx. destruct (build_rfm_row dc rfm x Hrfm Hx) as (s & _ & _ & Hagg).
  apply agg_group_inv in Hagg as (_ & _ & _ & Hf & _).
  rewrite Hf. unfold nunique. rewrite omap_id_Some. reflexivity.
Qed.

(** C10. A row whose invoice identifier is missing while its date,
    customer id, quantity and unit price are valid is kept by the
    cleaner, with the identifier read as ["nan"].  The aggregation
    returns when the dates of the cleaned set fit the 64-bit time
    arithmetic; whenever it returns, the table has a line for the
    customer of the row, and the frequency on that line, which counts
    distinct identifiers, takes all such rows together for one invoice:
    it is one more than the number of distinct identifiers other than
    ["nan"]. *)
Theorem missing_invoice_rows_kept (raw : raw_frame) (i : nat) (r : raw_row) (k : Z) :
  rows raw !! i = Some r →
  raw_InvoiceNo r = None →
  is_Some (raw_InvoiceDate r) →
  raw_CustomerID r = Some k →
  positive_cell (raw_Quantity r) →
  positive_cell (raw_UnitPrice r) →
  let dc := clean (typed_frame raw) in
  InvoiceNo (convert r) = "nan" ∧
  (i, convert r) ∈ dc ∧
  (dates_in_range dc → ∃ rfm, build_rfm dc = Ok rfm) ∧
  ∀ rfm, build_rfm dc = Ok rfm →
    (∃ x, x ∈ rfm ∧ rfm_CustomerID x = k) ∧
    ∀ x, x ∈ rfm → rfm_CustomerID x = k →
      frequency_invoices x = length (remove_dups (InvoiceNo <$> get_group dc k)) ∧
      frequency_invoices x
      = S (length (remove_dups
                     (filter (λ s, s ≠ "nan") (InvoiceNo <$> get_group dc k)))).
Proof.
  intros Hi Hinv Hdate Hcust Hq Hp dc.
  assert (Hnan : InvoiceNo (convert r) = "nan").
  { unfold convert; simpl. rewrite Hinv. reflexivity. }
  assert (Hin : (i, convert r) ∈ dc).
  { unfold dc. rewrite clean_filter by apply typed_frame_NoDup.
    apply list_elem_of_filter. split.
    - unfold retained; simpl. rewrite Hinv, Hcust. simpl.
      destruct (raw_Quantity r), (raw_UnitPrice r); simpl in *; try tauto.
      repeat split; eauto.
    - apply (elem_of_lookup_imap_2 (λ i r, (i, convert r))), Hi. }
  split; [exact Hnan|]. split; [exact Hin|].
  split; [apply build_rfm_in_range|].
  intros rfm Hrfm. split.
  { apply (build_rfm_has_customer dc rfm k Hrfm), group_keys_spec.
    exists (i, convert r). split; [exact Hin | exact Hcust]. }
  intros x Hx Hxk.
  pose proof (frequency_is_distinct_invoices dc rfm x Hrfm Hx) as Hf.
  rewrite Hxk in Hf. split; [exact Hf|].
  rewrite Hf. apply remove_dups_split.
  rewrite <- Hnan. apply list_elem_of_fmap_2, get_group_spec.
  exists i. split; [exact Hin | exact Hcust].
Qed.

Lemma missing_invoice_rows_kept_witness :
  let r := line None 3 2 19362 12346 "United Kingdom" in
  let dc := clean (typed_frame missing_invoices) in
  InvoiceNo (convert r) = "nan" ∧
  (2%nat, convert r) ∈ dc ∧
  ∃ rfm x,
    build_rfm dc = Ok rfm ∧ x ∈ rfm ∧ rfm_CustomerID x = 12346 ∧
    frequency_invoices x
    = S (length (remove_dups
                   (filter (λ s, s ≠ "nan") (InvoiceNo <$> get_group dc 12346)))).
Proof.
  destruct (missing_invoice_rows_kept missing_invoices 2
              (line None 3 2 19362 12346 "United Kingdom") 12346)
    as (Hnan & Hin & Hret & Hfreq).
  - reflexivity.
  - reflexivity.
  - simpl. eauto.
  - reflexivity.
  - simpl. reflexivity.
  - simpl. reflexivity.
  - split; [exact Hnan|]. split; [exact Hin|].
    destruct Hret as [rfm Hrfm].
    { apply (bool_decide_unpack _). vm_compute. exact I. }
    destruct (Hfreq rfm Hrfm) as [(x & Hx & Hxk) Hall].
    exists rfm, x. split; [exact Hrfm|]. split; [exact Hx|]. split; [exact Hxk|].
    apply (Hall x Hx Hxk).
Defined.

(** Two rows without identifier and one invoice: a frequency of 2. *)
Example missing_invoices_rfm :
  build_rfm (clean (typed_frame missing_invoices)) =
  Ok [ RfmRow 12346 1 2 131 (Some "United Kingdom") ].
Proof. vm_compute. reflexivity. Qed.


(** *** The dominant country *)

Lemma str_le_iff (a b : string) : str_le a b ↔ String_as_OT.lt a b ∨ a = b.
Proof.
  unfold str_le, String.leb. change String.compare with String_as_OT.compare.
  destruct (String_as_OT.compare_spec a b) as [E|L|G].
  - split; [right; exact E | reflexivity].
  - split; [left; exact L | reflexivity].
  - split; [discriminate|]. intros [L| ->]; exfalso.
    + apply (StrictOrder_Irreflexive a). etrans; eassumption.
    + apply (StrictOrder_Irreflexive b), G.
Qed.

#[local] Instance str_le_trans : Transitive str_le.
Proof.
  intros a b c [Hab| ->]%str_le_iff [Hbc| ->]%str_le_iff; apply str_le_iff; auto.
  left. etrans; eassumption.
Qed.

#[local] Instance str_le_total : Total str_le.
Proof. intros a b. apply String.leb_total. Qed.

#[local] Instance str_le_refl : Reflexive str_le.
Proof. intros a. apply str_le_iff. right. reflexivity. Qed.

Lemma count_pos `{EqDecision A} (v : A) (xs : list A) :
  v ∈ xs ↔ (0 < count_occ_of v xs)%nat.
Proof.
  unfold count_occ_of. induction xs as [|a xs IH].
  - simpl. split; [inversion 1 | lia].
  - rewrite filter_cons, elem_of_cons. destruct (decide (a = v)) as [->|Hne].
    + simpl. split; [lia | auto].
    + rewrite <- IH. split; [intros [->|Hv]; [congruence | exact Hv] | auto].
Qed.

Lemma count_le_max_count `{EqDecision A} (v : A) (xs : list A) :
  (count_occ_of v xs ≤ max_count xs)%nat.
Proof.
  destruct (decide (v ∈ xs)) as [Hv|Hv].
  - apply max_list_elem_of_le.
    apply (list_elem_of_fmap_2 (λ v, count_occ_of v xs)), Hv.
  - rewrite count_pos in Hv. lia.
Qed.

Lemma max_count_attained `{EqDecision A} (xs : list A) :
  xs ≠ [] → ∃ v, v ∈ xs ∧ count_occ_of v xs = max_count xs.
Proof.
  intros Hne.
  assert (Hin : max_count xs ∈ (λ v, count_occ_of v xs) <$> xs).
  { apply max_list_elem_of. intros E%fmap_nil_inv. contradiction. }
  apply list_elem_of_fmap in Hin as (v & Hv & Hin). eauto.
Qed.

(** What [Series.mode()] returns: the most frequent non-null values,
    each once, in increasing order. *)
Lemma mode_spec (x : list (option string)) (m : string) :
  let vals := omap id x in
  m ∈ mode x ↔ m ∈ vals ∧ count_occ_of m vals = max_count vals.
Proof.
  intros vals. unfold mode. fold vals.
  rewrite merge_sort_Permutation, list_elem_of_filter, elem_of_remove_dups.
  tauto.
Qed.

Lemma mode_sorted (x : list (option string)) : StronglySorted str_le (mode x).
Proof. apply (StronglySorted_merge_sort str_le). Qed.

Lemma mode_nonempty (x : list (option string)) : omap id x ≠ [] → mode x ≠ [].
Proof.
  intros Hne. destruct (max_count_attained _ Hne) as (v & Hv & Hc).
  assert (Hin : v ∈ mode x) by (apply mode_spec; auto).
  intros E. rewrite E in Hin. inversion Hin.
Qed.

(** C3, as the code has it. Take a customer of the cleaned set with a
    country on at least one row.  The aggregation returns when the dates
    of the cleaned set fit the 64-bit time arithmetic; whenever it
    returns, the table has a line for the customer, and the country on
    that line is a most frequent country value of the customer's rows,
    and among the values tied for most frequent the first in string
    order. *)
Theorem dominant_country_is_least_mode (raw : raw_frame) (k : Z) :
  let dc := clean (typed_frame raw) in
  let cs := omap id (Country <$> get_group dc k) in
  k ∈ group_keys dc →
  cs ≠ [] →
  (dates_in_range dc → ∃ rfm, build_rfm dc = Ok rfm) ∧
  ∀ rfm, build_rfm dc = Ok rfm →
    (∃ x, x ∈ rfm ∧ rfm_CustomerID x = k) ∧
    ∀ x, x ∈ rfm → rfm_CustomerID x = k →
      ∃ c, country x = Some c ∧
           c ∈ cs ∧
           (∀ d, count_occ_of d cs ≤ count_occ_of c cs)%nat ∧
           (∀ d, count_occ_of d cs = count_occ_of c cs → str_le c d).
Proof.
  intros dc cs Hk Hcs.
  split; [apply build_rfm_in_range|].
  intros rfm Hrfm. split; [exact (build_rfm_has_customer dc rfm k Hrfm Hk)|].
  intros x Hx Hxk.
  destruct (build_rfm_row dc rfm x Hrfm Hx) as (s & _ & _ & Hagg).
  apply agg_group_inv in Hagg as (_ & _ & Hc & _).
  rewrite Hxk in Hc. unfold country_of in Hc.
  pose proof (mode_nonempty _ Hcs) as Hne.
  pose proof (mode_sorted (Country <$> get_group dc k)) as Hsort.
  pose proof (mode_spec (Country <$> get_group dc k)) as Hspec.
  fold cs in Hspec. simpl in Hspec.
  destruct (mode (Country <$> get_group dc k)) as [|c rest]; [congruence|].
  injection Hc as Hc.
  destruct (proj1 (Hspec c)) as [Hcin Hcmax]; [left|].
  apply StronglySorted_inv in Hsort as [_ Hall].
  exists c. repeat split; auto.
  - intros d. rewrite Hcmax. apply count_le_max_count.
  - intros d Hd.
    assert (Hdin : d ∈ c :: rest).
    { apply Hspec. split; [|congruence].
      apply count_pos. rewrite Hd. apply count_pos, Hcin. }
    apply elem_of_cons in Hdin as [->|Hdin]; [reflexivity|].
    rewrite Forall_forall in Hall. apply Hall, Hdin.
Qed.

Lemma dominant_country_is_least_mode_witness :
  let dc := clean (typed_frame tied_countries) in
  let cs := omap id (Country <$> get_group dc 12346) in
  ∃ rfm x c,
    build_rfm dc = Ok rfm ∧ x ∈ rfm ∧ rfm_CustomerID x = 12346 ∧
    country x = Some c ∧
    c ∈ cs ∧
    (∀ d, count_occ_of d cs ≤ count_occ_of c cs)%nat ∧
    (∀ d, count_occ_of d cs = count_occ_of c cs → str_le c d).
Proof.
  destruct (dominant_country_is_least_mode tied_countries 12346) as [Hret Hdom].
  - vm_compute. left.
  - vm_compute. discriminate.
  - destruct Hret as [rfm Hrfm].
    { apply (bool_decide_unpack _). vm_compute. exact I. }
    destruct (Hdom rfm Hrfm) as [(x & Hx & Hxk) Hall].
    destruct (Hall x Hx Hxk) as (c & Hc).
    exists rfm, x, c. split; [exact Hrfm|]. split; [exact Hx|].
    split; [exact Hxk | exact Hc].
Defined.

(** C3 as stated fails: with "United Kingdom" met first and "France"
    second, once each, the customer's country is "France", where the
    first-encountered rule gives "United Kingdom". *)
Lemma tie_goes_to_sorted_order :
  let dc := clean (typed_frame tied_countries) in
  let cs := omap id (Country <$> get_group dc 12346) in
  cs = ["United Kingdom"; "France"] ∧
  build_rfm dc = Ok [ RfmRow 12346 1 2 2 (Some "France") ] ∧
  first_encountered_mode cs = Some "United Kingdom" ∧
  ¬ (∀ rfm x, build_rfm dc = Ok rfm → x ∈ rfm → rfm_CustomerID x = 12346 →
       country x = first_encountered_mode cs).
Proof.
  assert (Hb : build_rfm (clean (typed_frame tied_countries))
               = Ok [ RfmRow 12346 1 2 2 (Some "France") ])
    by (vm_compute; reflexivity).
  split; [vm_compute; reflexivity|]. split; [exact Hb|].
  split; [vm_compute; reflexivity|].
  intros Hclaim.
  specialize (Hclaim _ (RfmRow 12346 1 2 2 (Some "France")) Hb).
  discriminate Hclaim; [left | reflexivity].
Qed.


(** *** Schema resolution *)

Lemma build_lookup_from (cols : list string) (m : gmap string string) key c :
  foldl (λ m c, <[column_key c := c]> m) m cols !! key = Some c →
  (c ∈ cols ∧ column_key c = key) ∨ m !! key = Some c.
Proof.
  revert m. induction cols as [|a cols IH]; intros m; simpl; [auto|].
  intros [[Hin Hk]|Hm]%IH.
  - left. split; [right; exact Hin | exact Hk].
  - destruct (decide (column_key a = key)) as [Heq|Hne].
    + rewrite <- Heq, lookup_insert_eq in Hm. injection Hm as <-.
      left. split; [left | exact Heq].
    + rewrite lookup_insert_ne in Hm by exact Hne. right. exact Hm.
Qed.

Lemma build_lookup_keeps (cols : list string) (m : gmap string string) key :
  is_Some (m !! key) →
  is_Some (foldl (λ m c, <[column_key c := c]> m) m cols !! key).
Proof.
  revert m. induction cols as [|a cols IH]; intros m Hm; simpl; [exact Hm|].
  apply IH. rewrite lookup_insert. case_decide; [eauto | exact Hm].
Qed.

Lemma build_lookup_Some (cols : list string) key c :
  build_lookup cols !! key = Some c → c ∈ cols ∧ column_key c = key.
Proof.
  intros [H|H]%build_lookup_from; [exact H|].
  rewrite lookup_empty in H. discriminate.
Qed.

Lemma build_lookup_is_Some (cols : list string) key :
  is_Some (build_lookup cols !! key) ↔ ∃ c, c ∈ cols ∧ column_key c = key.
Proof.
  split.
  - intros [c Hc]. exists c. apply build_lookup_Some, Hc.
  - intros (c & Hin & Hk). unfold build_lookup. generalize (∅ : gmap string string).
    induction cols as [|a cols IH]; intros m; [inversion Hin|].
    simpl. apply elem_of_cons in Hin as [->|Hin]; [|apply IH, Hin].
    apply build_lookup_keeps. rewrite Hk, lookup_insert_eq. eauto.
Qed.

Lemma lookup_matches (cols : list string) cand :
  is_Some (build_lookup cols !! candidate_key cand) ↔ matches cols cand.
Proof. unfold matches. rewrite build_lookup_is_Some, Exists_exists. reflexivity. Qed.

Lemma pick_Some (cols : list string) (vs : list string) (c : string) :
  pick (build_lookup cols) vs = Some c →
  ∃ i cand, vs !! i = Some cand ∧ c ∈ cols ∧
            column_key c = candidate_key cand ∧
            ∀ j cand', (j < i)%nat → vs !! j = Some cand' → ¬ matches cols cand'.
Proof.
  induction vs as [|v vs IH]; simpl; [discriminate|].
  destruct (build_lookup cols !! candidate_key v) as [c'|] eqn:Hv.
  - intros [= ->]. apply build_lookup_Some in Hv as [Hin Hk].
    exists 0%nat, v. repeat split; auto. intros j cand' Hj. lia.
  - intros (i & cand & Hi & Hin & Hk & Hfirst)%IH.
    exists (S i), cand. repeat split; auto.
    intros [|j] cand' Hj; simpl.
    + intros [= <-]. rewrite <- lookup_matches, Hv. apply is_Some_None.
    + apply Hfirst. lia.
Qed.

Lemma pick_None (cols : list string) (vs : list string) :
  pick (build_lookup cols) vs = None ↔ ¬ resolves cols vs.
Proof.
  unfold resolves. induction vs as [|v vs IH]; simpl.
  - rewrite Exists_nil. tauto.
  - rewrite Exists_cons, <- lookup_matches.
    destruct (build_lookup cols !! candidate_key v) as [c'|] eqn:Hv.
    + split; [discriminate|]. intros Hn. exfalso. apply Hn. left. eauto.
    + rewrite IH. split.
      * intros Hn [[c Hc]|He]; [discriminate | auto].
      * intros Hn He. apply Hn. right. exact He.
Qed.

Lemma build_mapping_variants (lookup : gmap string string) :
  build_mapping lookup = (λ fv, (fv.1, pick lookup fv.2)) <$> field_variants.
Proof. reflexivity. Qed.

Lemma missing_fields_unresolved (cols : list string) :
  missing_fields (build_mapping (build_lookup cols)) = unresolved cols.
Proof.
  rewrite build_mapping_variants. unfold missing_fields, unresolved.
  induction field_variants as [|[f vs] fvs IH]; [reflexivity|].
  rewrite fmap_cons, !filter_cons. simpl.
  destruct (decide (pick (build_lookup cols) vs = None)) as [Hn|Hs];
    destruct (decide (¬ resolves cols vs)) as [Hr|Hr].
  - simpl. f_equal. exact IH.
  - exfalso. apply Hr, pick_None, Hn.
  - exfalso. apply Hs, pick_None, Hr.
  - exact IH.
Qed.


Lemma unresolved_spec (cols : list string) (f : string) :
  f ∈ unresolved cols ↔ ∃ vs, (f, vs) ∈ field_variants ∧ ¬ resolves cols vs.
Proof.
  unfold unresolved. rewrite list_elem_of_fmap. split.
  - intros ([f' vs] & -> & [Hr Hin]%list_elem_of_filter). eauto.
  - intros (vs & Hin & Hr). exists (f, vs). split; [reflexivity|].
    apply list_elem_of_filter. auto.
Qed.

Lemma normalize_columns_cases (df : raw_frame) :
  let cols := strip <$> columns df in
  (unresolved cols ≠ [] ∧
   _normalize_columns df = Raise (ValueError (schema_message (unresolved cols) cols)))
  ∨ (unresolved cols = [] ∧ ∃ df', _normalize_columns df = Ok df').
Proof.
  intros cols. unfold _normalize_columns. fold cols.
  rewrite missing_fields_unresolved.
  destruct (bool_decide (unresolved cols ≠ [])) eqn:Hb;
    [apply bool_decide_eq_true in Hb as Hm | apply bool_decide_eq_false in Hb as Hm].
  - left. split; [exact Hm | reflexivity].
  - right. split; [|eexists; reflexivity].
    destruct (unresolved cols) as [|f fs]; [reflexivity|].
    exfalso. apply Hm. discriminate.
Qed.

Lemma normalize_columns_any_rows (df : raw_frame) (body : list raw_row) e :
  _normalize_columns df = Raise e →
  _normalize_columns (RawFrame (columns df) body) = Raise e.
Proof.
  unfold _normalize_columns. simpl.
  destruct (bool_decide _); [auto | discriminate].
Qed.

(** *** The key of a column *)

Lemma lower_char_code (c : ascii) :
  lower_char c = ascii_of_nat (lower_case_code (nat_of_ascii c)).
Proof. destruct c as [[] [] [] [] [] [] [] []]; vm_compute; reflexivity. Qed.

Lemma isspace_code (c : ascii) :
  isspace c = bool_decide (nat_of_ascii c ∈ white_space).
Proof. destruct c as [[] [] [] [] [] [] [] []]; vm_compute; reflexivity. Qed.

Lemma isspace_true (c : ascii) : isspace c = true ↔ nat_of_ascii c ∈ white_space.
Proof. rewrite isspace_code. apply bool_decide_eq_true. Qed.

Lemma isspace_false (c : ascii) : isspace c = false ↔ nat_of_ascii c ∉ white_space.
Proof. rewrite isspace_code. apply bool_decide_eq_false. Qed.

Lemma candidate_key_normalize (s : string) : candidate_key s = normalize s.
Proof.
  unfold candidate_key, normalize. induction s as [|c s IH]; [reflexivity|].
  change (lower (String c s)) with (String (lower_char c) (lower s)).
  change (list_ascii_of_string (String c s)) with (c :: list_ascii_of_string s).
  rewrite fmap_cons, <- lower_char_code, filter_cons.
  change (remove_char " " (String (lower_char c) (lower s)))
    with (if Ascii.eqb (lower_char c) " "
          then remove_char " " (lower s)
          else String (lower_char c) (remove_char " " (lower s))).
  destruct (Ascii.eqb_spec (lower_char c) " ") as [E|E].
  - rewrite decide_False by tauto. exact IH.
  - change (remove_char "_" (String (lower_char c) (remove_char " " (lower s))))
      with (if Ascii.eqb (lower_char c) "_"
            then remove_char "_" (remove_char " " (lower s))
            else String (lower_char c) (remove_char "_" (remove_char " " (lower s)))).
    destruct (Ascii.eqb_spec (lower_char c) "_") as [E'|E'].
    + rewrite decide_False by tauto. exact IH.
    + rewrite decide_True by tauto. simpl. f_equal. exact IH.
Qed.

Lemma column_key_normalize (c : string) : column_key c = normalize (strip c).
Proof. apply (candidate_key_normalize (strip c)). Qed.

Lemma append_eq_nil (s t : string) : s +:+ t = "" → s = "" ∧ t = "".
Proof. destruct s; [simpl; auto | rewrite append_cons; discriminate]. Qed.

Lemma lstrip_spec (s : string) :
  ∃ pre, s = pre +:+ lstrip s ∧ blank pre ∧
         ∀ c t, lstrip s = String c t → isspace c = false.
Proof.
  induction s as [|c s (pre & E & Hpre & Hhead)].
  - exists "". split; [reflexivity|]. split; [constructor | discriminate].
  - simpl. destruct (isspace c) eqn:Hc.
    + exists (String c pre). rewrite append_cons, <- E.
      split; [reflexivity|]. split; [|exact Hhead].
      constructor; [apply isspace_true, Hc | exact Hpre].
    + exists "". split; [reflexivity|]. split; [constructor|].
      intros c' t [= <- _]. exact Hc.
Qed.

Lemma rstrip_spec (s : string) :
  ∃ post, s = rstrip s +:+ post ∧ blank post ∧
          (∀ t c, rstrip s = t +:+ String c "" → isspace c = false) ∧
          (∀ c t, rstrip s = String c t → ∃ t', s = String c t').
Proof.
  induction s as [|a s (post & E & Hpost & Hlast & Hhead)].
  - exists "". split; [reflexivity|]. split; [constructor|].
    split; [|discriminate].
    intros t c H. symmetry in H. apply append_eq_nil in H as [_ H]. discriminate.
  - simpl. destruct (rstrip s) as [|b r] eqn:Hr.
    + rewrite append_nil_l in E. subst post.
      destruct (isspace a) eqn:Ha.
      * exists (String a s). split; [reflexivity|].
        split; [constructor; [apply isspace_true, Ha | exact Hpost]|].
        split; [|discriminate].
        intros t c H. symmetry in H. apply append_eq_nil in H as [_ H]. discriminate.
      * exists s. split; [reflexivity|]. split; [exact Hpost|].
        split; [|intros c t [= <- _]; eauto].
        intros [|c0 t] c H.
        -- rewrite append_nil_l in H. injection H as <-. exact Ha.
        -- rewrite append_cons in H. injection H as _ H. symmetry in H.
           apply append_eq_nil in H as [_ H]. discriminate.
    + exists post. rewrite append_cons, <- E. split; [reflexivity|].
      split; [exact Hpost|]. split; [|intros c t [= <- _]; eauto].
      intros [|c0 t] c H.
      * rewrite append_nil_l in H. discriminate.
      * rewrite append_cons in H. injection H as _ H. exact (Hlast t c H).
Qed.

(** [strip] removes a blank prefix and a blank suffix, and what it
    leaves neither starts nor ends with white space. *)
Lemma strip_spec (s : string) :
  ∃ pre post, s = pre +:+ strip s +:+ post ∧ blank pre ∧ blank post ∧
    (∀ c t, strip s = String c t → nat_of_ascii c ∉ white_space) ∧
    (∀ t c, strip s = t +:+ String c "" → nat_of_ascii c ∉ white_space).
Proof.
  destruct (lstrip_spec s) as (pre & E1 & Hpre & Hhead).
  destruct (rstrip_spec (lstrip s)) as (post & E2 & Hpost & Hlast & Hkeep).
  exists pre, post. unfold strip. rewrite <- E2.
  split; [exact E1|]. split; [exact Hpre|]. split; [exact Hpost|]. split.
  - intros c t H. destruct (Hkeep c t H) as [t' Ht'].
    apply isspace_false, (Hhead c t' Ht').
  - intros t c H. apply isspace_false, (Hlast t c H).
Qed.

(** C7, as the code has it. The key of a name is the name in lower
    case with its spaces and underscores removed; for a column the name
    is first stripped of the white space around it.  Each field is
    given the column found for the first of its candidate names whose
    key equals the key of some column of the header.  The resolver
    raises exactly when some field has no candidate with a matching
    column; the error then names the unresolved fields and every column
    found, each stripped of the white space around it, and [main] ends
    with it whatever the rows are. *)
Theorem schema_resolution (df : raw_frame) :
  let cols := strip <$> columns df in
  let lookup := build_lookup cols in
  (∀ cand, candidate_key cand = normalize cand) ∧
  (∀ c, column_key c = normalize (strip c)) ∧
  (∀ s, ∃ pre post, s = pre +:+ strip s +:+ post ∧ blank pre ∧ blank post ∧
        (∀ c t, strip s = String c t → nat_of_ascii c ∉ white_space) ∧
        (∀ t c, strip s = t +:+ String c "" → nat_of_ascii c ∉ white_space)) ∧
  (∀ f vs, (f, vs) ∈ field_variants → (f, pick lookup vs) ∈ build_mapping lookup) ∧
  (∀ vs c, pick lookup vs = Some c →
     ∃ i cand, vs !! i = Some cand ∧ c ∈ cols ∧
               normalize (strip c) = normalize cand ∧
               ∀ j cand', (j < i)%nat → vs !! j = Some cand' →
                          ¬ ∃ c', c' ∈ cols ∧ normalize (strip c') = normalize cand') ∧
  (∀ vs, pick lookup vs = None ↔
         ¬ ∃ cand c, cand ∈ vs ∧ c ∈ cols ∧ normalize (strip c) = normalize cand) ∧
  (∀ f, f ∈ unresolved cols ↔ ∃ vs, (f, vs) ∈ field_variants ∧ ¬ resolves cols vs) ∧
  (∀ vs, resolves cols vs ↔
         ∃ cand c, cand ∈ vs ∧ c ∈ cols ∧ normalize (strip c) = normalize cand) ∧
  (fails (_normalize_columns df) ↔
     ∃ f vs, (f, vs) ∈ field_variants ∧ ¬ resolves cols vs) ∧
  (∀ e, _normalize_columns df = Raise e →
     e = ValueError ("Dataset missing required columns: " +:+
                       join ", " (unresolved cols) +:+ nl +:+
                     "Found columns: " +:+ join ", " cols) ∧
     ∀ body, main (RawFrame (columns df) body) = Raise e).
Proof.
  intros cols lookup.
  assert (Hmatch : ∀ cand, matches cols cand ↔
            ∃ c, c ∈ cols ∧ normalize (strip c) = normalize cand).
  { intros cand. unfold matches. rewrite Exists_exists.
    split; intros (c & Hc & Hk); exists c; (split; [exact Hc|]).
    - rewrite <- column_key_normalize, <- candidate_key_normalize. exact Hk.
    - rewrite column_key_normalize, candidate_key_normalize. exact Hk. }
  assert (Hres : ∀ vs, resolves cols vs ↔
            ∃ cand c, cand ∈ vs ∧ c ∈ cols ∧ normalize (strip c) = normalize cand).
  { intros vs. unfold resolves. rewrite Exists_exists. split.
    - intros (cand & Hin & (c & Hc & Hk)%Hmatch). eauto.
    - intros (cand & c & Hin & Hc & Hk). exists cand. split; [exact Hin|].
      apply Hmatch. eauto. }
  split; [apply candidate_key_normalize|].
  split; [apply column_key_normalize|].
  split; [apply strip_spec|].
  split.
  { intros f vs Hin. rewrite build_mapping_variants.
    apply (list_elem_of_fmap_2 (λ fv, (fv.1, pick lookup fv.2)) _ (f, vs)), Hin. }
  split.
  { intros vs c (i & cand & Hi & Hc & Hk & Hfirst)%pick_Some.
    exists i, cand. split; [exact Hi|]. split; [exact Hc|].
    split; [rewrite <- column_key_normalize, <- candidate_key_normalize; exact Hk|].
    intros j cand' Hj Hj' Hm. apply (Hfirst j cand' Hj Hj'), Hmatch, Hm. }
  split; [intros vs; rewrite <- Hres; apply pick_None|].
  split; [apply unresolved_spec|].
  split; [exact Hres|].
  destruct (normalize_columns_cases df) as [[Hne Hraise]|[Hnil [df' Hok]]];
    fold cols in Hne || fold cols in Hnil.
  - split.
    + split.
      * intros _. destruct (unresolved cols) as [|f fs] eqn:Hu; [congruence|].
        destruct (proj1 (unresolved_spec cols f)) as (vs & Hin & Hr);
          [rewrite Hu; left | eauto].
      * intros _. eexists. exact Hraise.
    + intros e He. rewrite Hraise in He. injection He as <-.
      split; [reflexivity|]. intros body.
      unfold main. rewrite (normalize_columns_any_rows df body _ Hraise).
      reflexivity.
  - split.
    + split.
      * intros [e He]. rewrite Hok in He. discriminate.
      * intros (f & vs & Hin & Hr). exfalso.
        assert (Hf : f ∈ unresolved cols) by (apply unresolved_spec; eauto).
        rewrite Hnil in Hf. inversion Hf.
    + intros e He. rewrite Hok in He. discriminate.
Qed.

Lemma schema_resolution_witness :
  ∃ e, _normalize_columns short_header = Raise e ∧
       e = ValueError ("Dataset missing required columns: " +:+
                         join ", " (unresolved (strip <$> columns short_header)) +:+ nl +:+
                       "Found columns: " +:+ join ", " (strip <$> columns short_header)) ∧
       ∀ body, main (RawFrame (columns short_header) body) = Raise e.
Proof.
  destruct (schema_resolution short_header)
    as (_ & _ & _ & _ & _ & _ & _ & _ & Hfail & Herr).
  destruct (proj2 Hfail) as [e He].
  - exists "InvoiceDate", ["InvoiceDate"; "Invoice Date"].
    split; [apply list_elem_of_lookup; exists 4%nat; reflexivity|].
    apply (bool_decide_eq_false_1 (resolves _ _)). vm_compute. reflexivity.
  - exists e. split; [exact He|]. apply Herr, He.
Defined.

(** C7 as stated fails in two places.  The error carries the stripped
    names, not the raw ones: the header of [short_header] has a column
    " Stock Code", and the message lists it as "Stock Code".  And the
    white space around a column name is not compared: in [tab_header]
    no raw name has the normalised form of the one candidate of the
    country field, so that field has no match as the claim reads, and
    the resolver accepts the header. *)
Lemma resolver_strips_column_names :
  (" Stock Code" ∈ columns short_header ∧
   ∃ msg, _normalize_columns short_header = Raise (ValueError msg) ∧
          msg = "Dataset missing required columns: InvoiceDate, CustomerID" +:+ nl +:+
                "Found columns: Invoice, Stock Code, Description, Qty, unit_price, Country" ∧
          msg ≠ "Dataset missing required columns: InvoiceDate, CustomerID" +:+ nl +:+
                "Found columns: " +:+ join ", " (columns short_header)) ∧
  (("Country", ["Country"]) ∈ field_variants ∧
   (∀ c, c ∈ columns tab_header → normalize c ≠ normalize "Country") ∧
   ¬ fails (_normalize_columns tab_header)).
Proof.
  split.
  - split; [right; left|].
    eexists. split; [vm_compute; reflexivity|]. split; [vm_compute; reflexivity|].
    vm_compute. discriminate.
  - split; [apply list_elem_of_In; vm_compute; tauto|]. split.
    + intros c Hc. apply list_elem_of_In in Hc. vm_compute in Hc.
      repeat (destruct Hc as [<-|Hc]; [vm_compute; discriminate|]). destruct Hc.
    + intros [e He]. vm_compute in He. discriminate He.
Qed.

(** The error text for [short_header]. *)
Example short_header_error :
  _normalize_columns short_header =
  Raise (ValueError
    ("Dataset missing required columns: InvoiceDate, CustomerID" +:+ nl +:+
     "Found columns: Invoice, Stock Code, Description, Qty, unit_price, Country")).
Proof. vm_compute. reflexivity. Qed.

Example column_key_example : column_key " Customer_ID " = "customerid".
Proof. reflexivity. Qed.

(** A no-break space around a name and an accented capital in it. *)
Example column_key_latin1 :
  column_key (String (ascii_of_nat 160) (String (ascii_of_nat 201) "cole ")) =
  String (ascii_of_nat 233) "cole".
Proof. reflexivity. Qed.

(** Two columns with the key of the invoice field, one of them named
    [InvoiceNo]: the header resolves, the name then labels two columns,
    and [main] ends at line 116. *)
Example two_invoice_columns_error :
  (∃ df, _normalize_columns two_invoice_columns = Ok df ∧
         columns df = ["InvoiceNo"; "InvoiceNo"; "StockCode"; "Description";
                       "Quantity"; "InvoiceDate"; "UnitPrice"; "CustomerID";
                       "Country"]) ∧
  main two_invoice_columns
  = Raise (AttributeError "'DataFrame' object has no attribute 'str'").
Proof. split; [eexists; split|]; vm_compute; reflexivity. Qed.

End BuildRfmFacts.

(** ** Facts about model/train_cluster_model.py *)

Section TrainClusterFacts.
Import TrainCluster ClusterProps ClusterSamples.

(** *** Strings *)

Lemma length_append (s t : string) :
  String.length (s +:+ t) = (String.length s + String.length t)%nat.
Proof. induction s as [|a s IH]; simpl; [reflexivity | rewrite IH; reflexivity]. Qed.

Lemma append_inj_r (s1 s2 t : string) : s1 +:+ t = s2 +:+ t → s1 = s2.
Proof.
  revert s2. induction s1 as [|a s1 IH]; intros [|b s2] H.
  - reflexivity.
  - apply (f_equal String.length) in H. rewrite !length_append in H.
    simpl in H. lia.
  - apply (f_equal String.length) in H. rewrite !length_append in H.
    simpl in H. lia.
  - rewrite !append_cons in H. injection H as -> H. f_equal. apply IH, H.
Qed.

Lemma str_int_inj (a b : Z) : str_int a = str_int b → a = b.
Proof.
  unfold str_int. intros H.
  assert (Hnn : ∀ z, Z.to_int z ≠ Decimal.Pos Decimal.Nil ∧
                     Z.to_int z ≠ Decimal.Neg Decimal.Nil).
  { intros [|p|p]; simpl; split; try discriminate;
      intros [= E]; exact (DecimalPos.Unsigned.to_uint_nonnil p E). }
  apply (f_equal NilZero.int_of_string) in H.
  rewrite !NilZero.isi in H by apply Hnn.
  injection H as H. apply DecimalZ.to_int_inj, H.
Qed.

Lemma suffixed_inj (a b : string) (c d : Z) :
  a ∈ base_labels → b ∈ base_labels →
  suffixed a c = suffixed b d → a = b ∧ c = d.
Proof.
  unfold base_labels, suffixed. rewrite !elem_of_cons, !elem_of_nil.
  intros [->|[->|[->|[->|[]]]]] [->|[->|[->|[->|[]]]]] H;
    rewrite !append_cons, ?append_nil_l in H; try discriminate H.
  all: split; [reflexivity|].
  all: repeat (injection H as H).
  all: apply str_int_inj, (append_inj_r _ _ ")"), H.
Qed.

Lemma suffixed_not_base (a b : string) (c : Z) :
  a ∈ base_labels → b ∈ base_labels → suffixed a c ≠ b.
Proof.
  unfold base_labels, suffixed. rewrite !elem_of_cons, !elem_of_nil.
  intros [->|[->|[->|[->|[]]]]] [->|[->|[->|[->|[]]]]] H;
    rewrite ?append_cons, ?append_nil_l in H; try discriminate H.
  all: apply (f_equal String.length) in H;
       rewrite ?length_append in H; simpl in H; lia.
Qed.

Lemma heuristic_label_base (grp : list cluster_stats) (st : cluster_stats) :
  heuristic_label grp st ∈ base_labels.
Proof.
  unfold heuristic_label, label_of, base_labels.
  destruct (rank_le2 _ && rank_le2 _), (rank_le2 _); simpl;
    rewrite !elem_of_cons; auto.
Qed.


(** *** The dict of names *)

Lemma dict_set_fresh (k : Z) (v : string) (d : list (Z * string)) :
  k ∉ d.*1 → dict_set k v d = d ++ [(k, v)].
Proof.
  induction d as [|[k' v'] d IH]; intros Hk; simpl; [reflexivity|].
  rewrite fmap_cons, not_elem_of_cons in Hk. destruct Hk as [Hne Hk].
  rewrite decide_False by (simpl in Hne; congruence).
  rewrite IH by exact Hk. reflexivity.
Qed.

Lemma dict_set_present (k : Z) (v v0 : string) (d1 d2 : list (Z * string)) :
  k ∉ d1.*1 → dict_set k v (d1 ++ (k, v0) :: d2) = d1 ++ (k, v) :: d2.
Proof.
  induction d1 as [|[k' v'] d1 IH]; intros Hk; simpl.
  - rewrite decide_True by reflexivity. reflexivity.
  - rewrite fmap_cons, not_elem_of_cons in Hk. destruct Hk as [Hne Hk].
    rewrite decide_False by (simpl in Hne; congruence).
    rewrite IH by exact Hk. reflexivity.
Qed.

Lemma names_loop_fresh (g0 grp : list cluster_stats) (acc : list (Z * string)) :
  NoDup (cl <$> grp) →
  (∀ st, st ∈ grp → cl st ∉ acc.*1) →
  foldl (λ names st, dict_set (cl st) (heuristic_label g0 st) names) acc grp
  = acc ++ ((λ st, (cl st, heuristic_label g0 st)) <$> grp).
Proof.
  revert acc. induction grp as [|st grp IH]; intros acc Hnd Hacc; simpl.
  - rewrite app_nil_r. reflexivity.
  - rewrite fmap_cons in Hnd. apply NoDup_cons in Hnd as [Hst Hnd].
    rewrite dict_set_fresh by (apply Hacc; left).
    rewrite IH; [rewrite <- app_assoc; reflexivity | exact Hnd |].
    intros st' Hst'. rewrite fmap_app, elem_of_app. simpl.
    intros [Hin|Hin%list_elem_of_singleton].
    + apply (Hacc st'); [right; exact Hst' | exact Hin].
    + apply Hst. rewrite <- Hin. apply list_elem_of_fmap_2, Hst'.
Qed.

(** The first loop, on lines with distinct cluster ids, lists the ids in
    order, each with its computed label. *)
Lemma initial_names_fmap (grp : list cluster_stats) :
  NoDup (cl <$> grp) →
  initial_names grp = (λ st, (cl st, heuristic_label grp st)) <$> grp.
Proof.
  intros Hnd. unfold initial_names.
  rewrite (names_loop_fresh grp grp [] Hnd); [reflexivity|].
  intros st _. simpl. apply not_elem_of_nil.
Qed.

(** The second loop is [relabel]. *)
Lemma make_unique_relabel (names : list (Z * string)) :
  NoDup names.*1 → make_unique names = relabel names ∅.
Proof.
  intros Hnd. unfold make_unique.
  assert (Hgen : ∀ items done seen,
            NoDup (done ++ items).*1 →
            (foldl uniq_step (done ++ items, seen) items).1
            = done ++ relabel items seen).
  { clear. induction items as [|[c nm] rest IH]; intros done seen Hnd; simpl.
    - reflexivity.
    - assert (Hc : c ∉ done.*1).
      { rewrite fmap_app in Hnd. apply NoDup_app in Hnd as (_ & Hdis & _).
        intros Hin. apply (Hdis c Hin). left. }
      destruct (bool_decide (is_Some (seen !! nm))).
      + rewrite dict_set_present by exact Hc.
        rewrite (cons_middle _ done rest), app_assoc.
        rewrite IH; [rewrite <- app_assoc; reflexivity|].
        rewrite <- app_assoc. simpl. rewrite !fmap_app in *. exact Hnd.
      + rewrite (cons_middle _ done rest), app_assoc.
        rewrite IH; [rewrite <- app_assoc; reflexivity|].
        rewrite <- app_assoc. exact Hnd. }
  apply (Hgen names [] ∅). exact Hnd.
Qed.

Lemma relabel_keys (items : list (Z * string)) (seen : gmap string Z) :
  (relabel items seen).*1 = items.*1.
Proof.
  revert seen. induction items as [|[c nm] rest IH]; intros seen; simpl; [reflexivity|].
  destruct (bool_decide _); rewrite fmap_cons, IH; reflexivity.
Qed.

#[local] Ltac same_test :=
  match goal with
  | |- (if bool_decide ?P then _ else _) = (if bool_decide ?Q then _ else _) =>
      rewrite (bool_decide_ext P Q); [reflexivity|]
  end.

(** The name at position [i]: suffixed when the label is in [seen] or
    belongs to an earlier item. *)
Lemma relabel_lookup (items : list (Z * string)) (seen : gmap string Z) i c nm :
  items !! i = Some (c, nm) →
  relabel items seen !! i
  = Some (c, if bool_decide (is_Some (seen !! nm) ∨ nm ∈ (take i items).*2)
             then suffixed nm c else nm).
Proof.
  revert seen i. induction items as [|[c0 nm0] rest IH]; intros seen i Hi;
    [discriminate|].
  destruct i as [|i]; simpl in *.
  - injection Hi as -> ->.
    destruct (bool_decide (is_Some (seen !! nm))) eqn:Hs; simpl.
    + apply bool_decide_eq_true in Hs.
      rewrite bool_decide_eq_true_2 by (left; exact Hs). reflexivity.
    + apply bool_decide_eq_false in Hs.
      rewrite bool_decide_eq_false_2; [reflexivity|].
      intros [H|H]; [contradiction | inversion H].
  - destruct (bool_decide (is_Some (seen !! nm0))) eqn:Hs; simpl.
    + apply bool_decide_eq_true in Hs. rewrite (IH seen i Hi).
      do 2 f_equal. same_test. rewrite elem_of_cons.
      split; [tauto|]. intros [H|[->|H]]; auto.
    + rewrite (IH _ i Hi). do 2 f_equal. same_test.
      rewrite elem_of_cons, lookup_insert.
      case_decide as Heq; [subst nm0|].
      * split; intros _; [right; left; reflexivity | left; eauto].
      * split; [tauto|]. intros [H|[->|H]]; [auto | congruence | auto].
Qed.


Lemma relabel_names (items : list (Z * string)) (seen : gmap string Z) (s : string) :
  s ∈ (relabel items seen).*2 →
  (∃ c nm, (c, nm) ∈ items ∧ s = suffixed nm c) ∨
  (seen !! s = None ∧ s ∈ items.*2).
Proof.
  revert seen. induction items as [|[c nm] rest IH]; intros seen; simpl.
  - intros H. inversion H.
  - destruct (bool_decide (is_Some (seen !! nm))) eqn:Hs;
      rewrite fmap_cons, elem_of_cons; simpl.
    + intros [->|[(c' & nm' & Hin & ->)|[Hn Hin]]%IH].
      * left. exists c, nm. split; [left | reflexivity].
      * left. exists c', nm'. split; [right; exact Hin | reflexivity].
      * right. split; [exact Hn | right; exact Hin].
    + apply bool_decide_eq_false in Hs.
      intros [->|[(c' & nm' & Hin & ->)|[Hn Hin]]%IH].
      * right. split; [|left].
        destruct (seen !! nm) eqn:E; [exfalso; apply Hs; eauto | reflexivity].
      * left. exists c', nm'. split; [right; exact Hin | reflexivity].
      * right. split; [|right; exact Hin].
        rewrite lookup_insert in Hn. case_decide; [discriminate | exact Hn].
Qed.

Lemma relabel_NoDup (items : list (Z * string)) (seen : gmap string Z) :
  NoDup items.*1 →
  (∀ nm, nm ∈ items.*2 → nm ∈ base_labels) →
  NoDup (relabel items seen).*2.
Proof.
  revert seen. induction items as [|[c nm] rest IH]; intros seen Hnd Hbase; simpl.
  - constructor.
  - rewrite fmap_cons in Hnd. apply NoDup_cons in Hnd as [Hc Hnd]. simpl in Hc.
    assert (Hnm : nm ∈ base_labels) by (apply Hbase; left).
    assert (Hrest : ∀ nm', nm' ∈ rest.*2 → nm' ∈ base_labels)
      by (intros nm' H; apply Hbase; right; exact H).
    destruct (bool_decide (is_Some (seen !! nm))); rewrite fmap_cons; simpl;
      (apply NoDup_cons; split; [|apply IH; assumption]).
    + intros [(c' & nm' & Hin & He)|[_ Hin]]%relabel_names.
      * apply suffixed_inj in He as [_ ->]; [|exact Hnm|].
        -- apply Hc. apply (list_elem_of_fmap_2 fst rest (c', nm')), Hin.
        -- apply Hrest. apply (list_elem_of_fmap_2 snd rest (c', nm')), Hin.
      * apply Hrest in Hin. exact (suffixed_not_base nm _ c Hnm Hin eq_refl).
    + intros [(c' & nm' & Hin & He)|[Hn _]]%relabel_names.
      * symmetry in He. revert He. apply suffixed_not_base; [|exact Hnm].
        apply Hrest. apply (list_elem_of_fmap_2 snd rest (c', nm')), Hin.
      * rewrite lookup_insert_eq in Hn. discriminate.
Qed.

(** *** The segment names *)

Lemma cluster_ids_NoDup (rfm_scored : list scored_record) :
  NoDup (cluster_ids rfm_scored).
Proof.
  unfold cluster_ids. rewrite merge_sort_Permutation. apply NoDup_remove_dups.
Qed.

Lemma cluster_ids_sorted (rfm_scored : list scored_record) :
  StronglySorted Z.le (cluster_ids rfm_scored).
Proof. apply (StronglySorted_merge_sort Z.le). Qed.

Lemma cluster_ids_spec (rfm_scored : list scored_record) (c : Z) :
  c ∈ cluster_ids rfm_scored ↔ ∃ s, s ∈ rfm_scored ∧ cluster s = c.
Proof.
  unfold cluster_ids.
  rewrite merge_sort_Permutation, elem_of_remove_dups, list_elem_of_fmap.
  split; intros (s & H1 & H2); eauto.
Qed.

Lemma segment_names_relabel (rfm_scored : list scored_record) :
  _segment_names_by_cluster rfm_scored
  = relabel ((λ c, (c, computed_label rfm_scored c)) <$> cluster_ids rfm_scored) ∅.
Proof.
  unfold _segment_names_by_cluster.
  assert (Hcl : cl <$> group_stats rfm_scored = cluster_ids rfm_scored).
  { unfold group_stats. rewrite <- list_fmap_compose. apply list_fmap_id. }
  assert (Hinit : initial_names (group_stats rfm_scored)
                  = (λ c, (c, computed_label rfm_scored c)) <$> cluster_ids rfm_scored).
  { rewrite initial_names_fmap by (rewrite Hcl; apply cluster_ids_NoDup).
    unfold group_stats at 2. rewrite <- list_fmap_compose. reflexivity. }
  rewrite Hinit. apply make_unique_relabel.
  assert (Hk : ((λ c, (c, computed_label rfm_scored c)) <$> cluster_ids rfm_scored).*1
               = cluster_ids rfm_scored)
    by (rewrite <- list_fmap_compose; apply list_fmap_id).
  rewrite Hk. apply cluster_ids_NoDup.
Qed.

(** C8. The clusters are named in ascending order of their id, one name
    each; a cluster whose computed label is also the computed label of a
    cluster with a smaller id gets that label followed by its own id in
    parentheses, any other cluster gets its label; and no two clusters
    get the same name. *)
Theorem segment_names_distinct (rfm_scored : list scored_record) :
  let names := _segment_names_by_cluster rfm_scored in
  let ids := cluster_ids rfm_scored in
  let label := computed_label rfm_scored in
  names.*1 = ids ∧
  StronglySorted Z.le ids ∧ NoDup ids ∧
  (∀ c, c ∈ ids ↔ ∃ s, s ∈ rfm_scored ∧ cluster s = c) ∧
  (∀ i c, ids !! i = Some c →
     names !! i = Some (c, if bool_decide (label c ∈ label <$> take i ids)
                           then label c +:+ " (" +:+ str_int c +:+ ")"
                           else label c)) ∧
  NoDup names.*2.
Proof.
  intros names ids label. unfold names. rewrite segment_names_relabel.
  fold ids. fold label.
  assert (Hkeys : ((λ c, (c, label c)) <$> ids).*1 = ids).
  { rewrite <- list_fmap_compose. apply list_fmap_id. }
  split; [rewrite relabel_keys; exact Hkeys|].
  split; [apply cluster_ids_sorted|]. split; [apply cluster_ids_NoDup|].
  split; [apply cluster_ids_spec|]. split.
  - intros i c Hi.
    rewrite (relabel_lookup _ ∅ i c (label c))
      by (rewrite list_lookup_fmap, Hi; reflexivity).
    do 2 f_equal. same_test.
    rewrite lookup_empty, <- fmap_take, <- list_fmap_compose. simpl.
    split; [intros [[x Hx]|H]; [discriminate | exact H] | auto].
  - apply relabel_NoDup.
    + rewrite Hkeys. apply cluster_ids_NoDup.
    + intros nm. rewrite <- list_fmap_compose.
      intros (c & -> & _)%list_elem_of_fmap. apply heuristic_label_base.
Qed.

Example five_clusters_names :
  _segment_names_by_cluster five_clusters
  = [(0, "Champions"); (1, "Champions (1)"); (2, "At Risk / Lost");
     (3, "At Risk / Lost (3)"); (4, "At Risk / Lost (4)")].
Proof. vm_compute. reflexivity. Qed.


(** *** The search for k *)

Section Search.
Context {features : Type} `{Sklearn features}.

Lemma auto_k_step_scored (Xs : features) (best : Z * Q) (k : Z) (s : Q) :
  scored_at Xs k s →
  auto_k_step Xs best k = Ok (if bool_decide (best.2 < s)%Q then (k, s) else best).
Proof.
  intros (labels & Hfit & Hsil). unfold auto_k_step.
  rewrite Hfit. simpl. rewrite Hsil. simpl.
  destruct (bool_decide _); reflexivity.
Qed.

Lemma for_each_scan (Xs : features) (score : Z → Q) (ks : list Z) (best : Z * Q) :
  (∀ k, k ∈ ks → scored_at Xs k (score k)) →
  for_each (auto_k_step Xs) ks best = Ok (scan score ks best).
Proof.
  revert best. induction ks as [|k ks IH]; intros best Hks; simpl; [reflexivity|].
  rewrite (auto_k_step_scored Xs best k (score k)) by (apply Hks; left).
  simpl. apply IH. intros k' Hk'. apply Hks. right. exact Hk'.
Qed.

End Search.

(** The scan over [lo, lo + n) either leaves the initial pair, no score
    exceeding the initial one, or ends on the first position of the
    greatest score. *)
Lemma scan_seqZ (score : Z → Q) (n : nat) (lo k0 : Z) (s0 : Q) :
  let best := scan score (seqZ lo (Z.of_nat n)) (k0, s0) in
  (best = (k0, s0) ∧ ∀ k, lo ≤ k < lo + Z.of_nat n → (score k <= s0)%Q) ∨
  (lo ≤ best.1 < lo + Z.of_nat n ∧ best.2 = score best.1 ∧ (s0 < score best.1)%Q ∧
   (∀ k, lo ≤ k < lo + Z.of_nat n → (score k <= score best.1)%Q) ∧
   (∀ k, lo ≤ k < best.1 → (score k < score best.1)%Q)).
Proof.
  revert lo k0 s0. induction n as [|n IH]; intros lo k0 s0.
  - left. split; [reflexivity | intros k Hk; lia].
  - rewrite seqZ_cons by lia. unfold scan. simpl.
    replace (Z.pred (Z.of_nat (S n))) with (Z.of_nat n) by lia.
    destruct (bool_decide (s0 < score lo)%Q) eqn:Hlt.
    + apply bool_decide_eq_true in Hlt. right.
      destruct (IH (Z.succ lo) lo (score lo)) as [[Heq Hle]|(Hr & He & Hs & Hle & Hfirst)];
        unfold scan in *.
      * rewrite Heq. simpl. split; [lia|]. split; [reflexivity|].
        split; [exact Hlt|]. split; [|intros k Hk; lia].
        intros k Hk. destruct (decide (k = lo)) as [->|Hne]; [apply Qle_refl|].
        apply Hle. lia.
      * split; [lia|]. split; [exact He|].
        split; [eapply Qlt_trans; eassumption|]. split.
        -- intros k Hk. destruct (decide (k = lo)) as [->|Hne];
             [apply Qlt_le_weak, Hs | apply Hle; lia].
        -- intros k Hk. destruct (decide (k = lo)) as [->|Hne];
             [exact Hs | apply Hfirst; lia].
    + apply bool_decide_eq_false in Hlt. apply Qnot_lt_le in Hlt.
      destruct (IH (Z.succ lo) k0 s0) as [[Heq Hle]|(Hr & He & Hs & Hle & Hfirst)];
        unfold scan in *.
      * left. split; [exact Heq|].
        intros k Hk. destruct (decide (k = lo)) as [->|Hne]; [exact Hlt|].
        apply Hle. lia.
      * right. split; [lia|]. split; [exact He|]. split; [exact Hs|]. split.
        -- intros k Hk. destruct (decide (k = lo)) as [->|Hne]; [|apply Hle; lia].
           apply Qlt_le_weak. eapply Qle_lt_trans; eassumption.
        -- intros k Hk. destruct (decide (k = lo)) as [->|Hne]; [|apply Hfirst; lia].
           eapply Qle_lt_trans; eassumption.
Qed.

Lemma range_2_11 : range 2 11 = [2; 3; 4; 5; 6; 7; 8; 9; 10].
Proof. reflexivity. Qed.

Lemma elem_of_range_2_11 (k : Z) : k ∈ range 2 11 ↔ 2 ≤ k ≤ 10.
Proof. unfold range. rewrite elem_of_seqZ. lia. Qed.


(** In auto-k mode with every k from 2 to 10 scored, the search is the
    scan of 2, ..., 10 from the pair (requested k, -1). *)
Lemma auto_k_is_scan {features : Type} `{Sklearn features}
    (a : args) (Xs : features) (score : Z → Q) :
  auto_k a = true →
  (∀ k, 2 ≤ k ≤ 10 → scored_at Xs k (score k)) →
  select_k a Xs = Ok (scan score (seqZ 2 (Z.of_nat 9)) (k a, (-1)%Q)).
Proof.
  intros Hauto Hall. unfold select_k. rewrite Hauto.
  apply (for_each_scan Xs score).
  intros k Hk%elem_of_range_2_11. apply Hall, Hk.
Qed.

(** With a score above -1 the scan of 2, ..., 10 ends on the first k of
    greatest score, whatever the initial k. *)
Lemma scan_first_maximum (score : Z → Q) (k0 : Z) :
  (∃ k, 2 ≤ k ≤ 10 ∧ (-1 < score k)%Q) →
  ∃ kb, scan score (seqZ 2 (Z.of_nat 9)) (k0, (-1)%Q) = (kb, score kb) ∧
        2 ≤ kb ≤ 10 ∧
        (∀ k, 2 ≤ k ≤ 10 → (score k <= score kb)%Q) ∧
        (∀ k, 2 ≤ k < kb → (score k < score kb)%Q).
Proof.
  intros (k1 & Hk1 & Hs1).
  destruct (scan_seqZ score 9 2 k0 (-1)%Q)
    as [[_ Hle]|(Hr & He & _ & Hle & Hfirst)].
  - exfalso. apply (Qlt_not_le _ _ Hs1), Hle. lia.
  - destruct (scan score (seqZ 2 (Z.of_nat 9)) (k0, (-1)%Q)) as [kb sb].
    simpl in *. subst sb. exists kb. split; [reflexivity|].
    split; [lia|]. split; [intros k Hk; apply Hle; lia | exact Hfirst].
Qed.


(** C4, as the code has it. In auto-k mode, when every k from 2 to 10
    is fitted and scored and some score exceeds the initial best score
    -1, the search visits k = 2, ..., 10 in this order and returns a k
    of greatest score, together with that score; every smaller k has a
    strictly lower score, so among the k of greatest score the smallest
    is returned. *)
Theorem auto_k_selects_first_maximum {features : Type} `{Sklearn features}
    (a : args) (Xs : features) (score : Z → Q) :
  auto_k a = true →
  (∀ k, 2 ≤ k ≤ 10 → scored_at Xs k (score k)) →
  (∃ k, 2 ≤ k ≤ 10 ∧ (-1 < score k)%Q) →
  range 2 11 = [2; 3; 4; 5; 6; 7; 8; 9; 10] ∧
  ∃ kb, select_k a Xs = Ok (kb, score kb) ∧
        2 ≤ kb ≤ 10 ∧
        (∀ k, 2 ≤ k ≤ 10 → (score k <= score kb)%Q) ∧
        (∀ k, 2 ≤ k < kb → (score k < score kb)%Q) ∧
        (∀ k', 2 ≤ k' ≤ 10 →
               (∀ k, 2 ≤ k ≤ 10 → (score k <= score k')%Q) → kb ≤ k').
Proof.
  intros Hauto Hall Hsome. split; [reflexivity|].
  rewrite (auto_k_is_scan a Xs score Hauto Hall).
  destruct (scan_first_maximum score (k a) Hsome)
    as (kb & -> & Hr & Hle & Hfirst).
  exists kb. split; [reflexivity|]. split; [exact Hr|].
  split; [exact Hle|]. split; [exact Hfirst|].
  intros k' Hr' Hmax.
  destruct (Z.le_gt_cases kb k') as [Hok|Hlt]; [exact Hok|].
  exfalso. apply (Qlt_not_le (score k') (score kb)).
  - apply Hfirst. lia.
  - apply Hmax, Hr.
Qed.

Lemma example_scores_scored (k : Z) :
  2 ≤ k ≤ 10 →
  @scored_at _ sample_sklearn ((λ r, (Recency r, Frequency r, Monetary r))
                                 <$> rows twelve_customers) k (example_scores k).
Proof.
  intros Hk.
  assert (Hcases : k = 2 ∨ k = 3 ∨ k = 4 ∨ k = 5 ∨ k = 6 ∨ k = 7 ∨ k = 8 ∨
                   k = 9 ∨ k = 10) by lia.
  destruct Hcases as [->|[->|[->|[->|[->|[->|[->|[->| ->]]]]]]]];
    (eexists; split; [vm_compute; reflexivity | vm_compute; reflexivity]).
Defined.

Lemma auto_k_selects_first_maximum_witness :
  range 2 11 = [2; 3; 4; 5; 6; 7; 8; 9; 10] ∧
  ∃ kb, @select_k _ sample_sklearn (Args 4 true)
          ((λ r, (Recency r, Frequency r, Monetary r)) <$> rows twelve_customers)
        = Ok (kb, example_scores kb) ∧
        2 ≤ kb ≤ 10 ∧
        (∀ k, 2 ≤ k ≤ 10 → (example_scores k <= example_scores kb)%Q) ∧
        (∀ k, 2 ≤ k < kb → (example_scores k < example_scores kb)%Q) ∧
        (∀ k', 2 ≤ k' ≤ 10 →
               (∀ k, 2 ≤ k ≤ 10 → (example_scores k <= example_scores k')%Q) →
               kb ≤ k').
Proof.
  apply (@auto_k_selects_first_maximum _ sample_sklearn (Args 4 true) _ example_scores).
  - reflexivity.
  - exact example_scores_scored.
  - exists 3. split; [lia | reflexivity].
Defined.

(** C4 as stated fails: with ten customers the search fits k = 2, ...,
    10 in turn, and at k = 10 the silhouette score rejects ten labels on
    ten samples; the search has no handler, ends with that exception and
    selects no k, and so does the run. *)
Lemma auto_k_raises_on_ten_customers :
  let X := (λ r, (Recency r, Frequency r, Monetary r)) <$> rows ten_customers in
  @fit_transform _ sample_sklearn X = Ok X ∧
  (∃ labels, @fit_predict _ sample_sklearn 10 X = Ok labels ∧
             length (remove_dups labels) = 10%nat ∧
             @silhouette_score _ sample_sklearn X labels
             = Raise (ValueError "Number of labels is out of range")) ∧
  @select_k _ sample_sklearn (Args 4 true) X
  = Raise (ValueError "Number of labels is out of range") ∧
  @main _ sample_sklearn (Args 4 true) ten_customers
  = Raise (ValueError "Number of labels is out of range") ∧
  ¬ ∃ kb s, @select_k _ sample_sklearn (Args 4 true) X = Ok (kb, s).
Proof.
  assert (Hsel : @select_k _ sample_sklearn (Args 4 true)
                   ((λ r, (Recency r, Frequency r, Monetary r)) <$> rows ten_customers)
                 = Raise (ValueError "Number of labels is out of range"))
    by (vm_compute; reflexivity).
  split; [vm_compute; reflexivity|].
  split; [eexists; split; [vm_compute; reflexivity|]; split; vm_compute; reflexivity|].
  split; [exact Hsel|]. split; [vm_compute; reflexivity|].
  intros (kb & s & H'). rewrite Hsel in H'. discriminate H'.
Qed.

(** Scores 0.41, 0.55, 0.55, 0.55 for k = 2, ..., 5: k = 3 is selected. *)
Example select_k_example :
  @select_k _ sample_sklearn (Args 4 true)
    ((λ r, (Recency r, Frequency r, Monetary r)) <$> rows twelve_customers)
  = Ok (3, 55 # 100).
Proof. vm_compute. reflexivity. Qed.


(** *** No guard on k *)

Section NoGuard.
Context {features : Type} `{Sklearn features}.










Lemma fmap_fst_pair {A B} (g : A → B) (l : list A) :
  ((λ x, (x, g x)) <$> l).*1 = l.
Proof. induction l as [|x l IH]; simpl; [reflexivity | f_equal; exact IH]. Qed.









End NoGuard.










Lemma segment_names_distinct_witness :
  let names := _segment_names_by_cluster five_clusters in
  names.*1 = cluster_ids five_clusters ∧ NoDup names.*2.
Proof.
  destruct (segment_names_distinct five_clusters) as (Hk & _ & _ & _ & _ & Hnd).
  split; [exact Hk | exact Hnd].
Defined.

End TrainClusterFacts.

(** ** Further facts about etl/build_rfm.py *)

Section BuildRfmMore.
Import BuildRfm Props BuildRfmReport BuildRfmSamples.

(** *** List counting *)

Lemma remove_dups_length `{EqDecision A} (l : list A) :
  (length (remove_dups l) ≤ length l)%nat.
Proof.
  apply submseteq_length, NoDup_submseteq; [apply NoDup_remove_dups|].
  intros x. apply elem_of_remove_dups.
Qed.

Lemma omap_length {A B} (f : A → option B) (l : list A) :
  (length (omap f l) ≤ length l)%nat.
Proof.
  induction l as [|a l IH]; csimpl; [lia|]. destruct (f a); csimpl; lia.
Qed.

Lemma filter_fmap_length {A B} (f : A → B) (P : B → Prop) `{∀ y, Decision (P y)}
    (l : list A) :
  length (filter P (f <$> l)) = length (filter (λ x, P (f x)) l).
Proof.
  induction l as [|a l IH]; [reflexivity|].
  rewrite fmap_cons. destruct (decide (P (f a))) as [Hp|Hp].
  - rewrite (filter_cons_True P), (filter_cons_True (λ x, P (f x))) by exact Hp.
    simpl. rewrite IH. reflexivity.
  - rewrite (filter_cons_False P), (filter_cons_False (λ x, P (f x))) by exact Hp.
    exact IH.
Qed.

Lemma filter_disjoint_length {A} (P R : A → Prop) `{∀ x, Decision (P x)}
    `{∀ x, Decision (R x)} (l : list A) :
  (∀ x, x ∈ l → P x → R x → False) →
  (length (filter P l) + length (filter R l) ≤ length l)%nat.
Proof.
  induction l as [|a l IH]; intros Hd; [simpl; lia|].
  rewrite !filter_cons.
  assert (IH' : (length (filter P l) + length (filter R l) ≤ length l)%nat)
    by (apply IH; intros x Hx; apply Hd; right; exact Hx).
  destruct (decide (P a)) as [Hp|Hp], (decide (R a)) as [Hr|Hr]; simpl; try lia.
  exfalso. apply (Hd a); [left | exact Hp | exact Hr].
Qed.

(** *** Cleaning twice *)

Lemma clean_labels_NoDup (raw : raw_frame) : NoDup (clean (typed_frame raw)).*1.
Proof.
  rewrite clean_filter by apply typed_frame_NoDup.
  eapply sublist_NoDup; [apply typed_frame_NoDup|].
  apply fmap_sublist, sublist_filter.
Qed.

(** X1. Cleaning a cleaned frame changes nothing. *)
Theorem clean_idempotent (raw : raw_frame) :
  clean (clean (typed_frame raw)) = clean (typed_frame raw).
Proof.
  rewrite (clean_filter (clean (typed_frame raw))) by apply clean_labels_NoDup.
  apply filter_all. intros [i r] Hir. simpl.
  exact (clean_retained raw i r Hir).
Qed.

(** *** The figures of the quality report *)

Lemma normalize_columns_rows (df df' : raw_frame) :
  _normalize_columns df = Ok df' → rows df' = rows df.
Proof.
  unfold _normalize_columns. destruct (bool_decide _); [discriminate|].
  intros [= <-]. reflexivity.
Qed.

Lemma mask_sum_count (p : row → bool) (df : frame) :
  NoDup df.*1 →
  mask_sum (mask_of p df) = length (filter (λ ir, p ir.2 = true) df).
Proof.
  intros Hnd. unfold mask_sum, mask_of.
  rewrite map_to_list_to_map by (rewrite <- list_fmap_compose; exact Hnd).
  rewrite (filter_fmap_length (λ ir : nat * row, (ir.1, p ir.2))
             (λ kv : nat * bool, kv.2 = true)).
  reflexivity.
Qed.

Lemma isna_sum_count {A} (f : row → option A) (df : frame) :
  isna_sum ((λ ir, f ir.2) <$> df) = length (filter (λ ir, ¬ is_Some (f ir.2)) df).
Proof.
  unfold isna_sum.
  rewrite (filter_fmap_length (λ ir : nat * row, f ir.2) (λ c, ¬ is_Some c)).
  reflexivity.
Qed.

Lemma rfm_length (dc : frame) (rfm : list rfm_row) :
  build_rfm dc = Ok rfm → (length rfm ≤ length dc)%nat.
Proof.
  intros H%build_rfm_customers.
  rewrite <- (length_fmap rfm_CustomerID), H. unfold group_keys.
  rewrite merge_sort_Permutation.
  etrans; [apply remove_dups_length | apply omap_length].
Qed.

Lemma main_quality_named_once (raw raw' : raw_frame) :
  _normalize_columns raw = Ok raw' →
  named_once (columns raw') →
  main_quality raw
  = (rfm ← build_rfm (clean (typed_frame raw'));
     Ok (quality_of (typed_frame raw') (clean (typed_frame raw')) rfm)).
Proof.
  intros Hn [Hc Ha]%named_once_columns. unfold main_quality. rewrite Hn. simpl.
  rewrite Hc. simpl.
  destruct (build_rfm (clean (typed_frame raw'))) as [rfm|e]; simpl; [|reflexivity].
  rewrite Ha. reflexivity.
Qed.

(** X2. When the header resolves with each required name labelling one
    column and the dates of the cleaned set fit the 64-bit time
    arithmetic, the report figures are produced and are consistent: the
    raw row count is the number of input rows; the cleaned rows together
    with the cancellations, or together with the rows lacking any one of
    the four critical fields, never exceed the raw row count; there are
    at most as many customers as cleaned rows, and none exactly when no
    row is left. *)
Theorem quality_figures_consistent (raw raw' : raw_frame) :
  _normalize_columns raw = Ok raw' →
  named_once (columns raw') →
  dates_in_range (clean (typed_frame raw')) →
  ∃ q, main_quality raw = Ok q ∧
       n_rows_raw q = length (rows raw) ∧
       (clean_transactions q + cancellations q ≤ n_rows_raw q)%nat ∧
       (clean_transactions q + null_invoice_date_raw q ≤ n_rows_raw q)%nat ∧
       (clean_transactions q + null_customer_raw q ≤ n_rows_raw q)%nat ∧
       (clean_transactions q + null_price_raw q ≤ n_rows_raw q)%nat ∧
       (clean_transactions q + null_qty_raw q ≤ n_rows_raw q)%nat ∧
       (rfm_customers q ≤ clean_transactions q)%nat ∧
       (rfm_customers q = 0%nat ↔ clean_transactions q = 0%nat).
Proof.
  intros Hn Hcols Hrange. rewrite (main_quality_named_once raw raw' Hn Hcols).
  destruct (build_rfm_in_range raw' Hrange) as [rfm Hrfm]. rewrite Hrfm. simpl.
  eexists. split; [reflexivity|]. simpl.
  pose proof (typed_frame_NoDup raw') as Hnd.
  pose proof (clean_filter _ Hnd) as Hdc.
  pose proof (rfm_length _ _ Hrfm) as Hle.
  pose proof (no_customers_no_rows raw') as Hnone.
  assert (Hlen : length (typed_frame raw') = length (rows raw)).
  { unfold typed_frame. rewrite length_imap.
    rewrite (normalize_columns_rows raw raw' Hn). reflexivity. }
  clear Hrange.
  set (df := typed_frame raw') in *. set (dc := clean df) in *.
  rewrite mask_sum_count by exact Hnd. rewrite !isna_sum_count.
  split; [exact Hlen|].
  repeat split.
  1-5: rewrite Hdc; apply filter_disjoint_length; intros [i r] _;
       unfold retained; simpl;
       try (unfold is_cancel_row; intros (_ & _ & _ & _ & Hc & _) Hc'; congruence);
       tauto.
  - exact Hle.
  - intros Hz. destruct rfm; [|discriminate]. rewrite (Hnone Hrfm). reflexivity.
  - intros Hz. destruct rfm; [reflexivity | simpl in *; lia].
Qed.

Lemma quality_figures_consistent_witness :
  ∃ q, main_quality three_customers = Ok q ∧
       n_rows_raw q = length (rows three_customers) ∧
       (clean_transactions q + cancellations q ≤ n_rows_raw q)%nat ∧
       (clean_transactions q + null_invoice_date_raw q ≤ n_rows_raw q)%nat ∧
       (clean_transactions q + null_customer_raw q ≤ n_rows_raw q)%nat ∧
       (clean_transactions q + null_price_raw q ≤ n_rows_raw q)%nat ∧
       (clean_transactions q + null_qty_raw q ≤ n_rows_raw q)%nat ∧
       (rfm_customers q ≤ clean_transactions q)%nat ∧
       (rfm_customers q = 0%nat ↔ clean_transactions q = 0%nat).
Proof.
  apply (quality_figures_consistent three_customers
           (RawFrame REQUIRED_COLS (rows three_customers))).
  - vm_compute. reflexivity.
  - apply (bool_decide_unpack _). vm_compute. exact I.
  - apply (bool_decide_unpack _). vm_compute. exact I.
Defined.


(** *** The RFM table *)

(** X3. The aggregation returns when the dates of the cleaned set fit
    the 64-bit time arithmetic; whenever it returns, the RFM table has
    exactly one line per customer id of the cleaned set, in ascending
    order of the id. *)
Theorem one_record_per_customer (raw : raw_frame) :
  let dc := clean (typed_frame raw) in
  (dates_in_range dc → ∃ rfm, build_rfm dc = Ok rfm) ∧
  ∀ rfm, build_rfm dc = Ok rfm →
    NoDup (rfm_CustomerID <$> rfm) ∧
    StronglySorted Z.le (rfm_CustomerID <$> rfm) ∧
    ∀ k, k ∈ rfm_CustomerID <$> rfm ↔ ∃ ir, ir ∈ dc ∧ CustomerID ir.2 = Some k.
Proof.
  intros dc. split; [apply build_rfm_in_range|]. intros rfm Hrfm.
  rewrite (build_rfm_customers dc rfm Hrfm).
  split; [apply group_keys_NoDup|].
  split; [apply (StronglySorted_merge_sort Z.le) | apply group_keys_spec].
Qed.

Lemma one_record_per_customer_witness :
  ∃ rfm, build_rfm (clean (typed_frame three_customers)) = Ok rfm ∧
         rfm_CustomerID <$> rfm = [12346; 12347; 12348].
Proof.
  destruct (one_record_per_customer three_customers) as [Hret _].
  destruct Hret as [rfm Hrfm].
  { apply (bool_decide_unpack _). vm_compute. exact I. }
  exists rfm. split; [exact Hrfm|].
  vm_compute in Hrfm. injection Hrfm as <-. reflexivity.
Defined.

Lemma get_group_nonempty (dc : frame) (k : Z) :
  k ∈ group_keys dc → get_group dc k ≠ [].
Proof.
  intros [[i r] [Hin Hk]]%group_keys_spec E.
  assert (Hr : r ∈ get_group dc k) by (apply get_group_spec; eauto).
  rewrite E in Hr. inversion Hr.
Qed.

(** X4. The aggregation returns when the dates of the cleaned set fit
    the 64-bit time arithmetic; whenever it returns, every customer's
    frequency is at most the number of that customer's cleaned rows, and
    at least 1 for a customer with a cleaned row whose invoice
    identifier is present in the input. *)
Theorem frequency_bounds (raw : raw_frame) :
  let dc := clean (typed_frame raw) in
  (dates_in_range dc → ∃ rfm, build_rfm dc = Ok rfm) ∧
  ∀ rfm x, build_rfm dc = Ok rfm → x ∈ rfm →
    (frequency_invoices x ≤ length (get_group dc (rfm_CustomerID x)))%nat ∧
    ((∃ i r, rows raw !! i = Some r ∧ is_Some (raw_InvoiceNo r) ∧
             raw_CustomerID r = Some (rfm_CustomerID x) ∧ (i, convert r) ∈ dc) →
     (1 ≤ frequency_invoices x)%nat).
Proof.
  intros dc. split; [apply build_rfm_in_range|]. intros rfm x Hrfm Hx.
  rewrite (frequency_is_distinct_invoices dc rfm x Hrfm Hx).
  split.
  - etrans; [apply remove_dups_length|]. rewrite length_fmap. reflexivity.
  - intros (i & r & _ & _ & Hk & Hin).
    assert (Hr : convert r ∈ get_group dc (rfm_CustomerID x))
      by (apply get_group_spec; exists i; split; [exact Hin | exact Hk]).
    destruct (get_group dc (rfm_CustomerID x)) as [|r0 g]; [inversion Hr|].
    rewrite fmap_cons.
    rewrite (remove_dups_split (InvoiceNo r0)) by left. lia.
Qed.

Lemma frequency_bounds_witness :
  let dc := clean (typed_frame three_customers) in
  ∃ rfm x, build_rfm dc = Ok rfm ∧ x ∈ rfm ∧ rfm_CustomerID x = 12347 ∧
           (1 ≤ frequency_invoices x ≤ length (get_group dc 12347))%nat.
Proof.
  destruct (frequency_bounds three_customers) as [Hret Hb].
  destruct Hret as [rfm Hrfm].
  { apply (bool_decide_unpack _). vm_compute. exact I. }
  destruct (build_rfm_has_customer _ rfm 12347 Hrfm) as (x & Hx & Hxk).
  { vm_compute. right. left. }
  exists rfm, x. split; [exact Hrfm|]. split; [exact Hx|]. split; [exact Hxk|].
  destruct (Hb rfm x Hrfm Hx) as [Hle Hge]. rewrite Hxk in Hle, Hge.
  split; [|exact Hle]. apply Hge.
  exists 1%nat, (line (Some "536366") 5 5 19362 12347 "United Kingdom").
  split; [reflexivity|]. split; [simpl; eauto|]. split; [reflexivity|].
  vm_compute. right. left.
Defined.

(** X5. When the header resolves with each required name labelling one
    column and the dates of the cleaned set fit the 64-bit time
    arithmetic, [main] writes its two tables, and they agree: the lines
    of the transactions table are the cleaned rows, in their order, each
    satisfying the cleaning rules and carrying a line total that is not
    null; the RFM table has one line per customer of the transactions
    table and no other line. *)
Theorem written_tables_agree (raw raw' : raw_frame) :
  _normalize_columns raw = Ok raw' →
  named_once (columns raw') →
  dates_in_range (clean (typed_frame raw')) →
  ∃ body rfm,
    main raw = Ok [(tx_out, Transactions body); (rfm_out, Customers rfm)] ∧
    body.*1 = (clean (typed_frame raw')).*2 ∧
    (∀ r lt, (r, lt) ∈ body → retained r ∧ is_Some lt) ∧
    NoDup (rfm_CustomerID <$> rfm) ∧
    (∀ k, k ∈ rfm_CustomerID <$> rfm ↔
          ∃ r lt, (r, lt) ∈ body ∧ CustomerID r = Some k).
Proof.
  intros Hn Hcols Hrange. destruct (build_rfm_in_range raw' Hrange) as [rfm Hrfm].
  clear Hrange. set (dc := clean (typed_frame raw')) in *.
  exists ((λ ir, (ir.2, LineTotal ir.2)) <$> dc), rfm.
  split.
  { rewrite (main_named_once raw raw' Hn Hcols). fold dc. rewrite Hrfm. reflexivity. }
  split; [rewrite <- !list_fmap_compose; reflexivity|]. split.
  { intros r lt ([i r'] & [= -> ->] & Hin)%list_elem_of_fmap. simpl.
    pose proof (clean_retained raw' i r' Hin) as Hret. split; [exact Hret|].
    unfold LineTotal. destruct Hret as (_ & _ & [q ->] & [p0 ->] & _). eauto. }
  rewrite (build_rfm_customers dc rfm Hrfm).
  split; [apply group_keys_NoDup|].
  intros k. rewrite group_keys_spec. split.
  - intros ([i r] & Hin & Hk). exists r, (LineTotal r). split; [|exact Hk].
    apply (list_elem_of_fmap_2 (λ ir, (ir.2, LineTotal ir.2)) dc (i, r)), Hin.
  - intros (r & lt & ([i r'] & [= -> ->] & Hin)%list_elem_of_fmap & Hk).
    exists (i, r'). auto.
Qed.

Lemma written_tables_agree_witness :
  ∃ body rfm,
    main three_customers = Ok [(tx_out, Transactions body); (rfm_out, Customers rfm)] ∧
    (∀ k, k ∈ rfm_CustomerID <$> rfm ↔
          ∃ r lt, (r, lt) ∈ body ∧ CustomerID r = Some k).
Proof.
  destruct (written_tables_agree three_customers
              (RawFrame REQUIRED_COLS (rows three_customers)))
    as (body & rfm & Hm & _ & _ & _ & Hk).
  - vm_compute. reflexivity.
  - apply (bool_decide_unpack _). vm_compute. exact I.
  - apply (bool_decide_unpack _). vm_compute. exact I.
  - exists body, rfm. split; [exact Hm | exact Hk].
Defined.


(** *** The header after a successful resolution *)

Lemma candidate_keys_disjoint :
  Forall (λ fv : string * list string,
    Forall (λ fv' : string * list string,
      Forall (λ c, Forall (λ c', candidate_key c = candidate_key c' → fv.1 = fv'.1)
                          fv'.2) fv.2) field_variants) field_variants.
Proof. apply (bool_decide_unpack _). vm_compute. exact I. Qed.

Lemma candidate_key_owner f vs f' vs' c c' :
  (f, vs) ∈ field_variants → (f', vs') ∈ field_variants →
  c ∈ vs → c' ∈ vs' → candidate_key c = candidate_key c' → f = f'.
Proof.
  intros Hfv Hfv' Hc Hc' Heq.
  pose proof candidate_keys_disjoint as H.
  rewrite Forall_forall in H. specialize (H _ Hfv).
  rewrite Forall_forall in H. specialize (H _ Hfv').
  rewrite Forall_forall in H. specialize (H _ Hc).
  rewrite Forall_forall in H. exact (H _ Hc' Heq).
Qed.

Lemma rename_loop_lookup (mapping : list (string * option string))
    (m : gmap (option string) string) (key : option string) :
  key ∈ mapping.*2 ∨ is_Some (m !! key) →
  ∃ f, ((f, key) ∈ mapping ∨ m !! key = Some f) ∧
       foldl (λ m kv, <[kv.2 := kv.1]> m) m mapping !! key = Some f.
Proof.
  revert m. induction mapping as [|[f0 k0] mapping IH]; intros m Hk; simpl.
  - destruct Hk as [Hk|[f Hf]]; [inversion Hk|]. exists f. auto.
  - destruct (IH (<[k0 := f0]> m)) as (f & Hf & Hlook).
    + rewrite fmap_cons, elem_of_cons in Hk. simpl in Hk.
      destruct Hk as [[->|Hk]|Hm]; [right; rewrite lookup_insert_eq; eauto | left; exact Hk|].
      right. rewrite lookup_insert. case_decide; [eauto | exact Hm].
    + exists f. split; [|exact Hlook]. destruct Hf as [Hf|Hf].
      * left. right. exact Hf.
      * rewrite lookup_insert in Hf. case_decide as Hd; [|right; exact Hf].
        injection Hf as <-. subst k0. left. left.
Qed.

Lemma pick_candidate (cols vs : list string) (v : string) :
  pick (build_lookup cols) vs = Some v →
  v ∈ cols ∧ ∃ cand, cand ∈ vs ∧ column_key v = candidate_key cand.
Proof.
  intros (i & cand & Hi & Hv & Hk & _)%pick_Some.
  split; [exact Hv|]. exists cand. split; [|exact Hk].
  apply list_elem_of_lookup. eauto.
Qed.

(** X6. When the resolver succeeds, the header it returns has as many
    columns as the input header and contains each of the eight canonical
    names, and the rows are untouched. *)
Theorem resolved_header_has_required (df df' : raw_frame) :
  _normalize_columns df = Ok df' →
  rows df' = rows df ∧
  length (columns df') = length (columns df) ∧
  ∀ f, f ∈ REQUIRED_COLS → f ∈ columns df'.
Proof.
  intros Hok. split; [exact (normalize_columns_rows df df' Hok)|].
  destruct (normalize_columns_cases df) as [[_ Hraise]|[Hnil _]];
    [rewrite Hraise in Hok; discriminate|].
  unfold _normalize_columns in Hok.
  destruct (bool_decide _); [discriminate|]. injection Hok as <-. simpl.
  set (cols := strip <$> columns df) in *.
  split; [unfold rename, cols; rewrite !length_fmap; reflexivity|].
  intros f Hf.
  change REQUIRED_COLS with (field_variants.*1) in Hf.
  apply list_elem_of_fmap in Hf as ([f0 vs] & -> & Hfv). simpl.
  destruct (pick (build_lookup cols) vs) as [v|] eqn:Hpick.
  2:{ exfalso. apply pick_None in Hpick.
      assert (Hu : f0 ∈ unresolved cols) by (apply unresolved_spec; eauto).
      rewrite Hnil in Hu. inversion Hu. }
  destruct (pick_candidate cols vs v Hpick) as (Hv & cand & Hcand & Hkey).
  assert (Hin : (f0, Some v) ∈ build_mapping (build_lookup cols)).
  { rewrite build_mapping_variants, <- Hpick.
    apply (list_elem_of_fmap_2 (λ fv, (fv.1, pick (build_lookup cols) fv.2)) _ (f0, vs)),
      Hfv. }
  destruct (rename_loop_lookup (build_mapping (build_lookup cols)) ∅ (Some v))
    as (f' & [Hf'|Hf'] & Hlook).
  { left. apply (list_elem_of_fmap_2 snd _ (f0, Some v)), Hin. }
  2:{ rewrite lookup_empty in Hf'. discriminate. }
  assert (f' = f0) as ->.
  { rewrite build_mapping_variants in Hf'.
    apply list_elem_of_fmap in Hf' as ([f1 vs1] & [= -> Hp1] & Hfv1). simpl in Hp1.
    symmetry in Hp1.
    destruct (pick_candidate cols vs1 v Hp1) as (_ & cand1 & Hcand1 & Hkey1).
    apply (candidate_key_owner f1 vs1 f0 vs cand1 cand); auto. congruence. }
  unfold rename. apply list_elem_of_fmap. exists v. split; [|exact Hv].
  unfold rename_dict. rewrite Hlook. reflexivity.
Qed.

Lemma resolved_header_has_required_witness :
  let df' := RawFrame REQUIRED_COLS (rows three_customers) in
  rows df' = rows three_customers ∧
  length (columns df') = length (columns three_customers) ∧
  ∀ f, f ∈ REQUIRED_COLS → f ∈ columns df'.
Proof.
  apply (resolved_header_has_required three_customers).
  vm_compute. reflexivity.
Defined.

(** *** Headers with the same keys *)

Lemma matches_key (cols : list string) (cand : string) :
  matches cols cand ↔ candidate_key cand ∈ column_key <$> cols.
Proof.
  unfold matches. rewrite Exists_exists, list_elem_of_fmap.
  split; intros (c & H1 & H2); exists c; auto.
Qed.

Lemma resolves_keys (cols1 cols2 vs : list string) :
  (∀ key, key ∈ column_key <$> cols1 ↔ key ∈ column_key <$> cols2) →
  resolves cols1 vs ↔ resolves cols2 vs.
Proof.
  intros Hk. unfold resolves. rewrite !Exists_exists.
  split; intros (cand & Hin & Hm); exists cand; (split; [exact Hin|]);
    apply matches_key; apply matches_key in Hm; apply Hk, Hm.
Qed.

(** X7. Whether a header is accepted, and which fields are reported
    missing, depends only on the set of keys of its columns: two headers
    whose columns have the same keys (they may differ in letter case,
    spaces, underscores, surrounding whitespace, order and repetitions)
    are accepted or rejected alike, with the same missing fields. *)
Theorem resolution_depends_on_keys (df1 df2 : raw_frame) :
  (∀ key, key ∈ column_key <$> (strip <$> columns df1)
          ↔ key ∈ column_key <$> (strip <$> columns df2)) →
  unresolved (strip <$> columns df1) = unresolved (strip <$> columns df2) ∧
  (fails (_normalize_columns df1) ↔ fails (_normalize_columns df2)).
Proof.
  intros Hk.
  assert (Hu : unresolved (strip <$> columns df1) = unresolved (strip <$> columns df2)).
  { unfold unresolved. f_equal. apply list_filter_iff. intros [f vs]. simpl.
    rewrite (resolves_keys _ _ vs Hk). reflexivity. }
  split; [exact Hu|].
  destruct (normalize_columns_cases df1) as [[Hne1 Hr1]|[Hnil1 [d1 Ho1]]],
           (normalize_columns_cases df2) as [[Hne2 Hr2]|[Hnil2 [d2 Ho2]]].
  - rewrite Hr1, Hr2. split; intros _; eexists; reflexivity.
  - exfalso. apply Hne1. rewrite Hu. exact Hnil2.
  - exfalso. apply Hne2. rewrite <- Hu. exact Hnil1.
  - rewrite Ho1, Ho2. split; intros [e He]; discriminate.
Qed.

Lemma resolution_depends_on_keys_witness :
  let df2 := RawFrame ["country"; " PRICE "; "customer_id"; "invoice date";
                       "QUANTITY"; "description"; "Stock Code"; "invoice"; "Invoice"] [] in
  unresolved (strip <$> columns three_customers) = unresolved (strip <$> columns df2) ∧
  (fails (_normalize_columns three_customers) ↔ fails (_normalize_columns df2)).
Proof.
  apply resolution_depends_on_keys.
  intros key. rewrite !list_elem_of_In. vm_compute. tauto.
Defined.


(** *** Columns with the same key *)

(** A dict filled from a list of columns, each under its key, keeps for
    a key the last column that has it. *)
Lemma keyed_dict_last (key_of : string → string) (cols : list string)
    (key c : string) :
  foldl (λ m c, <[key_of c := c]> m) (∅ : gmap string string) cols !! key = Some c ↔
  ∃ pre post, cols = pre ++ c :: post ∧ key_of c = key ∧
              ∀ c', c' ∈ post → key_of c' ≠ key.
Proof.
  revert c. induction cols as [|x cols IH] using rev_ind; intros c.
  - simpl. rewrite lookup_empty. split; [discriminate|].
    intros (pre & post & E & _). destruct pre; discriminate.
  - rewrite foldl_app. simpl. rewrite lookup_insert. case_decide as Hx.
    + split.
      * intros [= <-]. exists cols, []. repeat split; auto.
        intros c' Hc'. inversion Hc'.
      * intros (pre & post & E & Hk & Hlast).
        destruct post as [|y post _] using rev_ind.
        -- apply app_inj_tail in E as [_ ->]. reflexivity.
        -- exfalso. rewrite app_comm_cons, app_assoc in E.
           apply app_inj_tail in E as [_ ->].
           apply (Hlast y); [apply elem_of_app; right; left | exact Hx].
    + rewrite IH. split.
      * intros (pre & post & -> & Hk & Hlast).
        exists pre, (post ++ [x]). rewrite <- app_assoc. repeat split; auto.
        intros c' [Hc'|Hc'%list_elem_of_singleton]%elem_of_app;
          [apply Hlast, Hc' | subst; exact Hx].
      * intros (pre & post & E & Hk & Hlast).
        destruct post as [|y post _] using rev_ind.
        -- apply app_inj_tail in E as [_ ->]. congruence.
        -- rewrite app_comm_cons, app_assoc in E.
           apply app_inj_tail in E as [-> ->].
           exists pre, post. repeat split; auto.
           intros c' Hc'. apply Hlast, elem_of_app. left. exact Hc'.
Qed.

(** X8. When several columns of the header have the key of the
    candidate that wins, the resolver takes the last of them in header
    order. *)
Theorem pick_takes_last_column (df : raw_frame) (vs : list string) (c : string) :
  let cols := strip <$> columns df in
  pick (build_lookup cols) vs = Some c →
  ∃ cand pre post,
    cand ∈ vs ∧ column_key c = candidate_key cand ∧
    cols = pre ++ c :: post ∧
    ∀ c', c' ∈ post → column_key c' ≠ candidate_key cand.
Proof.
  intros cols. induction vs as [|v vs IH]; simpl; [discriminate|].
  destruct (build_lookup cols !! candidate_key v) as [c0|] eqn:E.
  - intros [= <-].
    apply (keyed_dict_last column_key) in E as (pre & post & Hs & Hk & Hlast).
    exists v, pre, post. repeat split; auto. left.
  - intros (cand & pre & post & Hin & Hk & Hs & Hlast)%IH.
    exists cand, pre, post. repeat split; auto. right. exact Hin.
Qed.

Lemma pick_takes_last_column_witness :
  let cols := ["invoice_no"; "Quantity"; "InvoiceNo"] in
  ∃ cand pre post,
    cand ∈ ["InvoiceNo"; "Invoice"; "InvoiceNo."] ∧
    column_key "InvoiceNo" = candidate_key cand ∧
    cols = pre ++ "InvoiceNo" :: post ∧
    ∀ c', c' ∈ post → column_key c' ≠ candidate_key cand.
Proof.
  apply (pick_takes_last_column (RawFrame ["invoice_no"; "Quantity"; "InvoiceNo"] [])
           ["InvoiceNo"; "Invoice"; "InvoiceNo."] "InvoiceNo").
  vm_compute. reflexivity.
Defined.


(** *** Edge cases of the aggregates *)

Lemma all_null_head {A} (x : list (option A)) :
  x ≠ [] → omap id x = [] → iloc0 x = Ok None.
Proof.
  destruct x as [|[a|] x]; [congruence | csimpl; discriminate | reflexivity].
Qed.

(** X9. The aggregation returns when the dates of the cleaned set fit
    the 64-bit time arithmetic; whenever it returns, a customer none of
    whose cleaned rows carries a country has a line in the RFM table,
    with a null country. *)
Theorem country_null_without_countries (raw : raw_frame) (k : Z) :
  let dc := clean (typed_frame raw) in
  k ∈ group_keys dc →
  omap id (Country <$> get_group dc k) = [] →
  (dates_in_range dc → ∃ rfm, build_rfm dc = Ok rfm) ∧
  ∀ rfm, build_rfm dc = Ok rfm →
    (∃ x, x ∈ rfm ∧ rfm_CustomerID x = k) ∧
    ∀ x, x ∈ rfm → rfm_CustomerID x = k → country x = None.
Proof.
  intros dc Hk Hnull. split; [apply build_rfm_in_range|].
  intros rfm Hrfm. split; [exact (build_rfm_has_customer dc rfm k Hrfm Hk)|].
  intros x Hx Hxk.
  destruct (build_rfm_row dc rfm x Hrfm Hx) as (s & _ & _ & Hagg).
  apply agg_group_inv in Hagg as (_ & _ & Hc & _).
  rewrite Hxk in Hc. unfold country_of, mode in Hc.
  rewrite Hnull in Hc. simpl in Hc.
  rewrite all_null_head in Hc; [congruence | | exact Hnull].
  intros E%fmap_nil_inv. exact (get_group_nonempty dc k Hk E).
Qed.

Lemma country_null_without_countries_witness :
  let dc := clean (typed_frame no_country) in
  ∃ rfm x, build_rfm dc = Ok rfm ∧ x ∈ rfm ∧ rfm_CustomerID x = 12346 ∧
           country x = None.
Proof.
  destruct (country_null_without_countries no_country 12346) as [Hret Hnull].
  - vm_compute. left.
  - vm_compute. reflexivity.
  - destruct Hret as [rfm Hrfm].
    { apply (bool_decide_unpack _). vm_compute. exact I. }
    destruct (Hnull rfm Hrfm) as [(x & Hx & Hxk) Hall].
    exists rfm, x. split; [exact Hrfm|]. split; [exact Hx|].
    split; [exact Hxk | exact (Hall x Hx Hxk)].
Defined.

(** X10. On a non-empty cleaned set the aggregation returns when the
    dates fit the 64-bit time arithmetic; whenever it returns, some
    customer has a recency of exactly one day: a customer who bought at
    the latest date of the set. *)
Theorem latest_customer_has_recency_one (raw : raw_frame) :
  let dc := clean (typed_frame raw) in
  dc ≠ [] →
  (dates_in_range dc → ∃ rfm, build_rfm dc = Ok rfm) ∧
  ∀ rfm, build_rfm dc = Ok rfm →
    ∃ x ir M, x ∈ rfm ∧ recency_days x = 1 ∧
              ir ∈ dc ∧ CustomerID ir.2 = Some (rfm_CustomerID x) ∧
              InvoiceDate ir.2 = Some M ∧
              ∀ ir' d, ir' ∈ dc → InvoiceDate ir'.2 = Some d → d ≤ M.
Proof.
  intros dc Hne. split; [apply build_rfm_in_range|]. intros rfm Hrfm.
  assert (HM : is_Some (series_max ((λ ir, InvoiceDate ir.2) <$> dc))).
  { destruct dc as [|[i r] dc'] eqn:Hdc; [congruence|].
    destruct (clean_retained raw i r) as ([d Hd] & _).
    { fold dc. rewrite Hdc. left. }
    apply series_max_is_Some with d. rewrite fmap_cons. simpl. rewrite Hd. left. }
  destruct HM as [M HM].
  destruct (series_max_date dc M HM) as [HMin HMmax].
  apply elem_of_dates in HMin as ([i r] & Hir & HrM). simpl in HrM.
  destruct (clean_retained raw i r Hir) as (_ & [k Hk] & _).
  assert (Hkey : k ∈ group_keys dc)
    by (apply group_keys_spec; exists (i, r); auto).
  destruct (build_rfm_has_customer dc rfm k Hrfm Hkey) as (x & Hx & Hxk).
  exists x, (i, r), M. split; [exact Hx|].
  destruct (build_rfm_row dc rfm x Hrfm Hx) as (s & Hs & _ & Hagg).
  apply agg_group_inv in Hagg as (_ & Hrec & _).
  rewrite Hxk in Hrec.
  apply recency_of_inv in Hrec as (s' & m & -> & Hm & _ & Hrec).
  apply snapshot_of_inv in Hs as (M' & HM' & -> & _).
  assert (M' = M) as -> by congruence.
  destruct (group_max_date dc k m Hm) as [(ir' & Hir' & _ & Hd') Hmmax].
  assert (HMm : M ≤ m) by (apply (Hmmax (i, r) M Hir Hk HrM)).
  assert (HmM : m ≤ M) by (apply HMmax, elem_of_dates; eauto).
  split.
  { rewrite Hrec. replace (M + ns_per_day - m) with (1 * ns_per_day) by lia.
    apply Z.div_mul. pose proof ns_per_day_pos. lia. }
  split; [exact Hir|]. split; [rewrite Hxk; exact Hk|]. split; [exact HrM|].
  intros ir'' d Hin Hd. apply HMmax, elem_of_dates. eauto.
Qed.

Lemma latest_customer_has_recency_one_witness :
  let dc := clean (typed_frame three_customers) in
  ∃ rfm x, build_rfm dc = Ok rfm ∧ x ∈ rfm ∧ recency_days x = 1.
Proof.
  destruct (latest_customer_has_recency_one three_customers) as [Hret Hone].
  - vm_compute. discriminate.
  - destruct Hret as [rfm Hrfm].
    { apply (bool_decide_unpack _). vm_compute. exact I. }
    destruct (Hone rfm Hrfm) as (x & _ & _ & Hx & H1 & _).
    exists rfm, x. split; [exact Hrfm|]. split; [exact Hx | exact H1].
Defined.

End BuildRfmMore.

(** ** Further facts about model/train_cluster_model.py *)

Section TrainClusterMore.
Import TrainCluster ClusterProps ClusterSamples.

(** *** _normalize_columns *)

Lemma column_renames_lookup (cols : list string) (c : string) :
  column_renames cols !! c =
  if decide (c = "customer_id")
  then (if bool_decide ("customer_id" ∈ cols ∧ "CustomerID" ∉ cols)
        then Some "CustomerID" else None)
  else if decide (c = "monetary_value")
  then (if bool_decide ("monetary_value" ∈ cols) then Some "Monetary" else None)
  else if decide (c = "frequency_invoices")
  then (if bool_decide ("frequency_invoices" ∈ cols) then Some "Frequency" else None)
  else if decide (c = "recency_days")
  then (if bool_decide ("recency_days" ∈ cols) then Some "Recency" else None)
  else None.
Proof.
  unfold column_renames.
  destruct (bool_decide ("recency_days" ∈ cols)),
           (bool_decide ("frequency_invoices" ∈ cols)),
           (bool_decide ("monetary_value" ∈ cols)),
           (bool_decide ("customer_id" ∈ cols ∧ "CustomerID" ∉ cols));
    rewrite ?lookup_insert, ?lookup_empty;
    repeat case_decide; try reflexivity; congruence.
Qed.


Lemma rename_present (cols : list string) (c : string) :
  c ∈ cols →
  default c (column_renames cols !! c) =
  if decide (c = "customer_id")
  then (if bool_decide ("CustomerID" ∉ cols) then "CustomerID" else c)
  else if decide (c = "monetary_value") then "Monetary"
  else if decide (c = "frequency_invoices") then "Frequency"
  else if decide (c = "recency_days") then "Recency"
  else c.
Proof.
  intros Hin. rewrite column_renames_lookup.
  repeat case_decide; subst; try reflexivity.
  - destruct (decide ("CustomerID" ∉ cols)) as [Hn|Hn].
    + rewrite bool_decide_eq_true_2 by (split; assumption).
      rewrite bool_decide_eq_true_2 by exact Hn. reflexivity.
    + rewrite bool_decide_eq_false_2 by tauto.
      rewrite bool_decide_eq_false_2 by exact Hn. reflexivity.
  - rewrite bool_decide_eq_true_2 by exact Hin. reflexivity.
  - rewrite bool_decide_eq_true_2 by exact Hin. reflexivity.
  - rewrite bool_decide_eq_true_2 by exact Hin. reflexivity.
Qed.

Lemma renamed_elem (cols : list string) (name : string) :
  name ∈ (λ c, default c (column_renames cols !! c)) <$> cols ↔
  ∃ c, c ∈ cols ∧
       name = if decide (c = "customer_id")
              then (if bool_decide ("CustomerID" ∉ cols) then "CustomerID" else c)
              else if decide (c = "monetary_value") then "Monetary"
              else if decide (c = "frequency_invoices") then "Frequency"
              else if decide (c = "recency_days") then "Recency"
              else c.
Proof.
  rewrite list_elem_of_fmap. split.
  - intros (c & Hc & Hin). exists c. split; [exact Hin|].
    rewrite <- (rename_present cols c Hin). exact Hc.
  - intros (c & Hin & Hc). exists c. split; [|exact Hin].
    rewrite (rename_present cols c Hin). exact Hc.
Qed.

Lemma renamed_Recency (cols : list string) :
  "Recency" ∈ (λ c, default c (column_renames cols !! c)) <$> cols ↔
  "Recency" ∈ cols ∨ "recency_days" ∈ cols.
Proof.
  rewrite renamed_elem. split.
  - intros (c & Hin & Hc). repeat case_decide; try case_bool_decide; subst;
      try discriminate Hc; auto.
  - intros [H|H]; [exists "Recency" | exists "recency_days"];
      (split; [exact H | reflexivity]).
Qed.

Lemma renamed_Frequency (cols : list string) :
  "Frequency" ∈ (λ c, default c (column_renames cols !! c)) <$> cols ↔
  "Frequency" ∈ cols ∨ "frequency_invoices" ∈ cols.
Proof.
  rewrite renamed_elem. split.
  - intros (c & Hin & Hc). repeat case_decide; try case_bool_decide; subst;
      try discriminate Hc; auto.
  - intros [H|H]; [exists "Frequency" | exists "frequency_invoices"];
      (split; [exact H | reflexivity]).
Qed.

Lemma renamed_Monetary (cols : list string) :
  "Monetary" ∈ (λ c, default c (column_renames cols !! c)) <$> cols ↔
  "Monetary" ∈ cols ∨ "monetary_value" ∈ cols.
Proof.
  rewrite renamed_elem. split.
  - intros (c & Hin & Hc). repeat case_decide; try case_bool_decide; subst;
      try discriminate Hc; auto.
  - intros [H|H]; [exists "Monetary" | exists "monetary_value"];
      (split; [exact H | reflexivity]).
Qed.

Lemma renamed_CustomerID (cols : list string) :
  "CustomerID" ∈ (λ c, default c (column_renames cols !! c)) <$> cols ↔
  "CustomerID" ∈ cols ∨ "customer_id" ∈ cols.
Proof.
  rewrite renamed_elem. split.
  - intros (c & Hin & Hc). repeat case_decide; try case_bool_decide; subst;
      try discriminate Hc; auto.
  - intros H. destruct (decide ("CustomerID" ∈ cols)) as [Hc|Hc].
    + exists "CustomerID". split; [exact Hc | reflexivity].
    + destruct H as [H|H]; [contradiction|].
      exists "customer_id". split; [exact H|]. simpl.
      rewrite bool_decide_eq_true_2 by exact Hc. reflexivity.
Qed.


(** X11. The RFM file is accepted exactly when each of the customer id,
    recency, frequency and monetary columns is present under its final
    name or under the name [etl/build_rfm.py] writes ([customer_id],
    [recency_days], [frequency_invoices], [monetary_value]).  It is then
    returned with the four final names in its header, the same number of
    columns and the same rows; otherwise a ValueError is raised. *)
Theorem rfm_columns_accepted (rfm : rfm_frame) :
  let cols := columns rfm in
  let ok := ("CustomerID" ∈ cols ∨ "customer_id" ∈ cols) ∧
            ("Recency" ∈ cols ∨ "recency_days" ∈ cols) ∧
            ("Frequency" ∈ cols ∨ "frequency_invoices" ∈ cols) ∧
            ("Monetary" ∈ cols ∨ "monetary_value" ∈ cols) in
  (ok → ∃ rfm', _normalize_columns rfm = Ok rfm' ∧
                rows rfm' = rows rfm ∧
                length (columns rfm') = length cols ∧
                ∀ c, c ∈ ["CustomerID"; "Recency"; "Frequency"; "Monetary"] →
                     c ∈ columns rfm') ∧
  (¬ ok → ∃ msg, _normalize_columns rfm = Raise (ValueError msg)).
Proof.
  intros cols ok. unfold _normalize_columns. fold cols.
  pose proof (renamed_CustomerID cols) as Hc.
  pose proof (renamed_Recency cols) as Hr.
  pose proof (renamed_Frequency cols) as Hf.
  pose proof (renamed_Monetary cols) as Hm.
  set (cols' := (λ c, default c (column_renames cols !! c)) <$> cols) in *.
  rewrite !filter_cons, filter_nil.
  split.
  - intros (H1 & H2 & H3 & H4).
    apply Hc in H1. apply Hr in H2. apply Hf in H3. apply Hm in H4.
    rewrite !decide_False by tauto.
    rewrite bool_decide_eq_false_2 by tauto.
    eexists. split; [reflexivity|]. simpl. split; [reflexivity|].
    split; [unfold cols'; rewrite length_fmap; reflexivity|].
    intros c. rewrite !elem_of_cons, elem_of_nil.
    intros [->|[->|[->|[->|[]]]]]; assumption.
  - intros Hno.
    assert (Hsome : "CustomerID" ∉ cols' ∨ "Recency" ∉ cols' ∨
                    "Frequency" ∉ cols' ∨ "Monetary" ∉ cols').
    { unfold ok in Hno. rewrite <- Hc, <- Hr, <- Hf, <- Hm in Hno.
      destruct (decide ("CustomerID" ∈ cols')), (decide ("Recency" ∈ cols')),
               (decide ("Frequency" ∈ cols')), (decide ("Monetary" ∈ cols')); tauto. }
    rewrite bool_decide_eq_true_2; [eexists; reflexivity|].
    destruct (decide ("CustomerID" ∉ cols')); [discriminate|].
    destruct (decide ("Recency" ∉ cols')); [discriminate|].
    destruct (decide ("Frequency" ∉ cols')); [discriminate|].
    destruct (decide ("Monetary" ∉ cols')); [discriminate|].
    tauto.
Qed.

Lemma rfm_columns_accepted_witness :
  ∃ rfm', _normalize_columns twelve_customers = Ok rfm' ∧
          rows rfm' = rows twelve_customers ∧
          length (columns rfm') = length (columns twelve_customers) ∧
          ∀ c, c ∈ ["CustomerID"; "Recency"; "Frequency"; "Monetary"] →
               c ∈ columns rfm'.
Proof.
  apply (proj1 (rfm_columns_accepted twelve_customers)).
  repeat split.
  - left. apply list_elem_of_lookup. exists 0%nat. reflexivity.
  - right. apply list_elem_of_lookup. exists 1%nat. reflexivity.
  - right. apply list_elem_of_lookup. exists 2%nat. reflexivity.
  - right. apply list_elem_of_lookup. exists 3%nat. reflexivity.
Defined.


(** *** Medians and ranks *)

Lemma median_is_Some (x : list Q) : x ≠ [] → is_Some (median x).
Proof.
  intros Hne. unfold median.
  set (s := merge_sort Qle x).
  assert (Hlen : length s = length x)
    by (apply Permutation_length, merge_sort_Permutation).
  assert (Hpos : (0 < length s)%nat).
  { rewrite Hlen. destruct x; [congruence | simpl; lia]. }
  destruct (Nat.even (length s)) eqn:Hev.
  - apply Nat.even_spec in Hev as [m Hm].
    destruct (lookup_lt_is_Some_2 s (length s / 2 - 1)) as [a ->].
    { rewrite Hm. rewrite Nat.mul_comm, Nat.div_mul by lia. lia. }
    destruct (lookup_lt_is_Some_2 s (length s / 2)) as [b ->]; [|eauto].
    rewrite Hm. rewrite Nat.mul_comm, Nat.div_mul by lia. lia.
  - apply fmap_is_Some, lookup_lt_is_Some_2.
    apply Nat.div_lt; lia.
Qed.

Lemma dense_rank_bound (ascending : bool) (col : list (option Q)) (q : Q) :
  Some q ∈ col →
  ∃ n, dense_rank ascending col (Some q) = Some n ∧ (1 ≤ n ≤ length col)%nat.
Proof.
  intros Hin. unfold dense_rank. eexists. split; [reflexivity|].
  split; [lia|].
  assert (Hq : q ∈ omap id col) by (apply list_elem_of_omap; exists (Some q); auto).
  pose proof (omap_length id col) as Hlen.
  assert (Hstrict : ∀ (P : Q → Prop) `{∀ w, Decision (P w)},
            ¬ P q → (S (length (remove_dups (Qred <$> filter P (omap id col))))
                     ≤ length col)%nat).
  { intros P HP Hnot.
    pose proof (remove_dups_length (Qred <$> filter P (omap id col))) as H1.
    rewrite length_fmap in H1.
    pose proof (length_filter_lt P (omap id col) q Hq Hnot) as H2. lia. }
  destruct ascending; apply Hstrict; apply Qlt_irrefl.
Qed.

Lemma rank_le2_small (ascending : bool) (col : list (option Q)) (q : Q) :
  Some q ∈ col → (length col ≤ 2)%nat →
  rank_le2 (dense_rank ascending col (Some q)) = true.
Proof.
  intros Hin Hlen.
  destruct (dense_rank_bound ascending col q Hin) as (n & -> & Hn).
  simpl. apply Nat.leb_le. lia.
Qed.

Lemma stats_of_medians (rfm_scored : list scored_record) (c : Z) :
  c ∈ cluster_ids rfm_scored →
  is_Some (med_Recency (stats_of rfm_scored c)) ∧
  is_Some (med_Frequency (stats_of rfm_scored c)) ∧
  is_Some (med_Monetary (stats_of rfm_scored c)).
Proof.
  intros (s & Hs & Hc)%cluster_ids_spec. unfold stats_of. simpl.
  assert (Hne : base <$> filter (λ s, cluster s = c) rfm_scored ≠ []).
  { intros E%fmap_nil_inv.
    assert (Hin : s ∈ filter (λ s, cluster s = c) rfm_scored)
      by (apply list_elem_of_filter; auto).
    rewrite E in Hin. inversion Hin. }
  repeat split; apply median_is_Some; intros E%fmap_nil_inv; contradiction.
Qed.

(** With at most two clusters every cluster is strong and recent. *)
Lemma two_clusters_all_champions (rfm_scored : list scored_record) (c : Z) :
  (length (cluster_ids rfm_scored) ≤ 2)%nat →
  c ∈ cluster_ids rfm_scored →
  computed_label rfm_scored c = "Champions".
Proof.
  intros Hlen Hc. unfold computed_label, heuristic_label.
  destruct (stats_of_medians rfm_scored c Hc) as ([r Hr] & [f Hf] & [m Hm]).
  assert (Hst : stats_of rfm_scored c ∈ group_stats rfm_scored)
    by (apply list_elem_of_fmap_2, Hc).
  assert (Hgl : (length (group_stats rfm_scored) ≤ 2)%nat)
    by (unfold group_stats; rewrite length_fmap; exact Hlen).
  rewrite Hr, Hf, Hm.
  rewrite !rank_le2_small; [reflexivity | | | | | |];
    rewrite ?length_fmap; try exact Hgl.
  - rewrite <- Hr. apply list_elem_of_fmap_2, Hst.
  - rewrite <- Hf. apply list_elem_of_fmap_2, Hst.
  - rewrite <- Hm. apply list_elem_of_fmap_2, Hst.
Qed.

(** X12. With one or two clusters the heuristic cannot tell them apart:
    every cluster is labelled "Champions", so the cluster with the
    smallest id is named "Champions" and the other one "Champions (id)". *)
Theorem two_clusters_named_champions (rfm_scored : list scored_record) :
  (length (cluster_ids rfm_scored) ≤ 2)%nat →
  ∀ i c, cluster_ids rfm_scored !! i = Some c →
    _segment_names_by_cluster rfm_scored !! i
    = Some (c, if decide (i = 0%nat) then "Champions"
               else "Champions" +:+ " (" +:+ str_int c +:+ ")").
Proof.
  intros Hlen i c Hi. rewrite segment_names_relabel.
  set (ids := cluster_ids rfm_scored) in *.
  assert (Hc : c ∈ ids) by (apply list_elem_of_lookup; eauto).
  rewrite (relabel_lookup _ ∅ i c (computed_label rfm_scored c))
    by (rewrite list_lookup_fmap, Hi; reflexivity).
  rewrite (two_clusters_all_champions rfm_scored c Hlen Hc).
  do 2 f_equal. destruct i as [|i].
  - rewrite bool_decide_eq_false_2; [reflexivity|].
    rewrite lookup_empty. simpl. intros [[x Hx]|H]; [discriminate | inversion H].
  - rewrite bool_decide_eq_true_2; [reflexivity|]. right.
    destruct (lookup_lt_is_Some_2 ids 0) as [c0 H0].
    { apply lookup_lt_Some in Hi. lia. }
    assert (Hl0 : computed_label rfm_scored c0 = "Champions").
    { apply two_clusters_all_champions; [exact Hlen|].
      apply list_elem_of_lookup. eauto. }
    apply list_elem_of_lookup. exists 0%nat.
    rewrite list_lookup_fmap, lookup_take_lt by lia.
    rewrite list_lookup_fmap, H0. simpl. rewrite Hl0. reflexivity.
Qed.

Lemma two_clusters_named_champions_witness :
  _segment_names_by_cluster two_clusters !! 1%nat = Some (1, "Champions (1)").
Proof.
  apply (two_clusters_named_champions two_clusters).
  - vm_compute. lia.
  - reflexivity.
Defined.


(** *** The shape of the names *)

Lemma relabel_form (items : list (Z * string)) (seen : gmap string Z) c nm :
  (c, nm) ∈ relabel items seen →
  ∃ b, (c, b) ∈ items ∧ (nm = b ∨ nm = suffixed b c).
Proof.
  revert seen. induction items as [|[c0 b0] rest IH]; intros seen; simpl.
  - intros H. inversion H.
  - destruct (bool_decide (is_Some (seen !! b0))); rewrite elem_of_cons.
    + intros [[= -> ->]|(b & Hin & Hb)%IH].
      * exists b0. split; [left | right; reflexivity].
      * exists b. split; [right; exact Hin | exact Hb].
    + intros [[= -> ->]|(b & Hin & Hb)%IH].
      * exists b0. split; [left | left; reflexivity].
      * exists b. split; [right; exact Hin | exact Hb].
Qed.

(** X13. Every segment name is one of the four labels, or one of them
    followed by the cluster's id in parentheses; at most four clusters
    carry a bare label, so with more than four clusters all but four at
    most carry a suffixed one. *)
Theorem at_most_four_bare_labels (rfm_scored : list scored_record) :
  let names := _segment_names_by_cluster rfm_scored in
  (∀ c nm, (c, nm) ∈ names →
     ∃ b, b ∈ base_labels ∧ (nm = b ∨ nm = b +:+ " (" +:+ str_int c +:+ ")")) ∧
  (length (filter (λ p, p.2 ∈ base_labels) names) ≤ 4)%nat ∧
  (length (cluster_ids rfm_scored) - 4
   ≤ length (filter (λ p, ¬ p.2 ∈ base_labels) names))%nat.
Proof.
  intros names.
  assert (Hnames : names = relabel ((λ c, (c, computed_label rfm_scored c))
                                      <$> cluster_ids rfm_scored) ∅)
    by apply segment_names_relabel.
  assert (Hkeys : ((λ c, (c, computed_label rfm_scored c))
                     <$> cluster_ids rfm_scored).*1 = cluster_ids rfm_scored).
  { rewrite <- list_fmap_compose. apply list_fmap_id. }
  assert (Hnd : NoDup names.*2).
  { rewrite Hnames. apply relabel_NoDup.
    - rewrite Hkeys. apply cluster_ids_NoDup.
    - intros nm. rewrite <- list_fmap_compose.
      intros (c & -> & _)%list_elem_of_fmap. apply heuristic_label_base. }
  assert (Hbare : (length (filter (λ p, p.2 ∈ base_labels) names) ≤ 4)%nat).
  { rewrite <- (length_fmap snd).
    change 4%nat with (length base_labels).
    apply submseteq_length, NoDup_submseteq.
    - eapply sublist_NoDup; [exact Hnd|]. apply fmap_sublist, sublist_filter.
    - intros nm ([c nm'] & -> & [Hb _]%list_elem_of_filter)%list_elem_of_fmap.
      exact Hb. }
  split; [|split; [exact Hbare|]].
  - intros c nm Hin. rewrite Hnames in Hin.
    apply relabel_form in Hin as (b & Hb & Hnm).
    exists b. split; [|exact Hnm].
    apply list_elem_of_fmap in Hb as (c' & [= -> ->] & _).
    apply heuristic_label_base.
  - pose proof (filter_app_complement (λ p : Z * string, p.2 ∈ base_labels) names) as Hp.
    apply Permutation_length in Hp. rewrite length_app in Hp.
    assert (Hl : length names = length (cluster_ids rfm_scored)).
    { rewrite <- (length_fmap fst names), Hnames, relabel_keys, Hkeys.
      reflexivity. }
    lia.
Qed.

(** *** The scored table *)

Lemma dict_get_present (k : Z) (d : list (Z * string)) :
  k ∈ d.*1 → ∃ v, dict_get k d = Some v ∧ (k, v) ∈ d.
Proof.
  unfold dict_get. induction d as [|[k0 v0] d IH]; [inversion 1|].
  rewrite fmap_cons, elem_of_cons. simpl. intros Hk.
  destruct (decide (k0 = k)) as [->|Hne].
  - exists v0. split; [reflexivity | left].
  - destruct Hk as [->|Hk]; [congruence|].
    destruct (IH Hk) as (v & Hv & Hin).
    exists v. split; [|right; exact Hin].
    destruct (list_find (λ kv, kv.1 = k) d) as [[i [k1 v1]]|]; [|discriminate].
    simpl in *. exact Hv.
Qed.

Lemma names_injective (d : list (Z * string)) k1 k2 v :
  NoDup d.*2 → (k1, v) ∈ d → (k2, v) ∈ d → k1 = k2.
Proof.
  induction d as [|[k0 v0] d IH]; [inversion 2|].
  rewrite fmap_cons, NoDup_cons, !elem_of_cons. simpl.
  intros [Hv Hnd] [E1|H1] [E2|H2].
  - congruence.
  - exfalso. apply Hv. injection E1 as _ <-.
    apply (list_elem_of_fmap_2 snd d (k2, v)), H2.
  - exfalso. apply Hv. injection E2 as _ <-.
    apply (list_elem_of_fmap_2 snd d (k1, v)), H1.
  - exact (IH Hnd H1 H2).
Qed.

Lemma zip_with_base (rs : list rfm_record) (labels : list Z) :
  length labels = length rs → base <$> zip_with Scored rs labels = rs.
Proof.
  revert labels. induction rs as [|r rs IH]; intros [|l labels] Hlen;
    try discriminate Hlen; [reflexivity|].
  injection Hlen as Hlen. simpl. f_equal. apply IH, Hlen.
Qed.

Section Scored.
Context {features : Type} `{Sklearn features}.

(** X14. When the run succeeds, the scored table lists the customers of
    the RFM file unchanged and in their order; every customer has a
    segment name, which is the name of the customer's cluster in the
    name map; and two customers have the same segment name exactly when
    they are in the same cluster. *)
Theorem scored_table_names (a : args) (rfm : rfm_frame) (out : outputs) :
  main a rfm = Ok out →
  ∃ rfm', _normalize_columns rfm = Ok rfm' ∧
          base <$> (scored out).*1 = rows rfm' ∧
          (∀ s nm, (s, nm) ∈ scored out →
             ∃ name, nm = Some name ∧ (cluster s, name) ∈ segment_name_map out) ∧
          (∀ s1 s2 nm1 nm2, (s1, nm1) ∈ scored out → (s2, nm2) ∈ scored out →
             (nm1 = nm2 ↔ cluster s1 = cluster s2)).
Proof.
  unfold main.
  destruct (_normalize_columns rfm) as [rfm'|e]; simpl; [|discriminate].
  destruct (fit_transform _) as [Xs|e]; simpl; [|discriminate].
  destruct (select_k a Xs) as [best|e]; simpl; [|discriminate].
  destruct (fit_predict best.1 Xs) as [labels|e]; simpl; [|discriminate].
  unfold assign_cluster.
  destruct (bool_decide (length labels = length (rows rfm'))) eqn:Hlen;
    simpl; [|discriminate].
  apply bool_decide_eq_true in Hlen.
  destruct (aggregate_columns (columns rfm')) as [[]|e]; simpl; [|discriminate].
  intros [= <-]. simpl.
  set (sc := zip_with Scored (rows rfm') labels).
  set (names := _segment_names_by_cluster sc).
  exists rfm'. split; [reflexivity|].
  split; [rewrite fmap_fst_pair; apply zip_with_base, Hlen|].
  assert (Hitems : ((λ c, (c, computed_label sc c)) <$> cluster_ids sc).*1
                   = cluster_ids sc).
  { rewrite <- list_fmap_compose. apply list_fmap_id. }
  assert (Hkeys : names.*1 = cluster_ids sc).
  { unfold names. rewrite segment_names_relabel, relabel_keys. exact Hitems. }
  assert (Hnd : NoDup names.*2).
  { unfold names. rewrite segment_names_relabel. apply relabel_NoDup.
    - rewrite Hitems. apply cluster_ids_NoDup.
    - intros nm. rewrite <- list_fmap_compose.
      intros (c & -> & _)%list_elem_of_fmap. apply heuristic_label_base. }
  assert (Hget : ∀ s, s ∈ sc →
            ∃ name, dict_get (cluster s) names = Some name ∧
                    (cluster s, name) ∈ names).
  { intros s Hs. apply dict_get_present. rewrite Hkeys.
    apply cluster_ids_spec. eauto. }
  split.
  - intros s nm (s' & [= -> ->] & Hs)%list_elem_of_fmap.
    destruct (Hget s' Hs) as (name & Hd & Hin). exists name. auto.
  - intros s1 s2 nm1 nm2 (s1' & [= -> ->] & Hs1)%list_elem_of_fmap
                         (s2' & [= -> ->] & Hs2)%list_elem_of_fmap.
    destruct (Hget s1' Hs1) as (n1 & Hd1 & Hin1).
    destruct (Hget s2' Hs2) as (n2 & Hd2 & Hin2).
    split.
    + rewrite Hd1, Hd2. intros [= ->].
      exact (names_injective names _ _ n2 Hnd Hin1 Hin2).
    + intros ->. reflexivity.
Qed.

End Scored.

Lemma scored_table_names_witness :
  ∃ out rfm',
    @main _ sample_sklearn (Args 4 false) twelve_customers = Ok out ∧
    _normalize_columns twelve_customers = Ok rfm' ∧
    base <$> (scored out).*1 = rows rfm' ∧
    (∀ s1 s2 nm1 nm2, (s1, nm1) ∈ scored out → (s2, nm2) ∈ scored out →
       (nm1 = nm2 ↔ cluster s1 = cluster s2)).
Proof.
  destruct (@main _ sample_sklearn (Args 4 false) twelve_customers) as [out|e] eqn:Hm.
  - destruct (@scored_table_names _ sample_sklearn (Args 4 false) twelve_customers
                out Hm) as (rfm' & Hn & Hb & _ & Hsame).
    exists out, rfm'. split; [reflexivity|]. split; [exact Hn|].
    split; [exact Hb | exact Hsame].
  - exfalso. vm_compute in Hm. discriminate Hm.
Defined.


(** *** A candidate k that the library rejects *)

Section NoFallback.
Context {features : Type} `{Sklearn features}.

Lemma for_each_app {A S : Type} (body : S → A → result S) (l1 l2 : list A) (acc : S) :
  for_each body (l1 ++ l2) acc
  = match for_each body l1 acc with
    | Ok acc' => for_each body l2 acc'
    | Raise e => Raise e
    end.
Proof.
  revert acc. induction l1 as [|x l1 IH]; intros acc; simpl; [reflexivity|].
  destruct (body acc x) as [acc'|e]; simpl; [apply IH | reflexivity].
Qed.

Lemma auto_k_step_rejected (Xs : features) (best : Z * Q) (k : Z) (e : exn) :
  fit_predict k Xs = Raise e ∨
  (∃ labels, fit_predict k Xs = Ok labels ∧ silhouette_score Xs labels = Raise e) →
  auto_k_step Xs best k = Raise e.
Proof.
  unfold auto_k_step. intros [Hf|(labels & Hf & Hs)]; rewrite Hf; simpl;
    [reflexivity|]. rewrite Hs. reflexivity.
Qed.

(** X15. The auto-k search has no fallback.  If the library fits and
    scores every k below some k of 2..10 and raises at that k, in the
    fit or in the silhouette score, the search and the whole run end
    with that exception, whatever k was requested. *)
Theorem auto_k_has_no_fallback (a : args) (Xs : features) (score : Z → Q)
    (k : Z) (e : exn) :
  auto_k a = true →
  2 ≤ k ≤ 10 →
  (∀ k', 2 ≤ k' < k → scored_at Xs k' (score k')) →
  fit_predict k Xs = Raise e ∨
  (∃ labels, fit_predict k Xs = Ok labels ∧ silhouette_score Xs labels = Raise e) →
  select_k a Xs = Raise e ∧
  ∀ rfm rfm',
    _normalize_columns rfm = Ok rfm' →
    fit_transform ((λ r, (Recency r, Frequency r, Monetary r)) <$> rows rfm') = Ok Xs →
    main a rfm = Raise e.
Proof.
  intros Hauto Hk Hbelow Hrej.
  assert (Hsel : select_k a Xs = Raise e).
  { unfold select_k, range. rewrite Hauto.
    replace (11 - 2) with ((k - 2) + (11 - k)) by lia.
    rewrite seqZ_app by lia.
    replace (2 + (k - 2)) with k by lia.
    rewrite (seqZ_cons k) by lia.
    rewrite for_each_app.
    rewrite (for_each_scan Xs score)
      by (intros k' Hk'%elem_of_seqZ; apply Hbelow; lia).
    simpl. rewrite (auto_k_step_rejected Xs _ k e Hrej). reflexivity. }
  split; [exact Hsel|].
  intros rfm rfm' Hn Hx. unfold main.
  rewrite Hn. simpl. rewrite Hx. simpl. rewrite Hsel. reflexivity.
Qed.

End NoFallback.

Lemma five_customers_scored (k' : Z) :
  2 ≤ k' < 5 →
  @scored_at _ sample_sklearn ((λ r, (Recency r, Frequency r, Monetary r))
                                 <$> rows five_customers) k' (example_scores k').
Proof.
  intros Hk.
  assert (Hcases : k' = 2 ∨ k' = 3 ∨ k' = 4) by lia.
  destruct Hcases as [->|[->| ->]];
    (eexists; split; [vm_compute; reflexivity | vm_compute; reflexivity]).
Defined.

Lemma auto_k_has_no_fallback_witness :
  ∃ e, @main _ sample_sklearn (Args 2 true) five_customers = Raise e ∧
       ∃ out, @main _ sample_sklearn (Args 2 false) five_customers = Ok out.
Proof.
  exists (ValueError "Number of labels is out of range"). split.
  - apply (@auto_k_has_no_fallback _ sample_sklearn (Args 2 true)
             ((λ r, (Recency r, Frequency r, Monetary r)) <$> rows five_customers)
             example_scores 5 (ValueError "Number of labels is out of range")
             eq_refl ltac:(lia) five_customers_scored)
      with (rfm' := RfmFrame ["CustomerID"; "Recency"; "Frequency"; "Monetary"; "country"]
                             (rows five_customers)).
    + right. eexists. split; vm_compute; reflexivity.
    + vm_compute. reflexivity.
    + vm_compute. reflexivity.
  - eexists. vm_compute. reflexivity.
Defined.

End TrainClusterMore.

(** ** Facts about etl/convert_xlsx_to_csv.py *)

Section ConvertXlsxFacts.
Import ConvertXlsx.
Context {line : Type}.

Lemma write_sheets_after_header (sheets : list (list line)) (out : list line) :
  Forall (λ ws, ws ≠ []) sheets →
  write_sheets sheets true out = (out ++ concat (tail <$> sheets), Done).
Proof.
  revert out. induction sheets as [|ws sheets IH]; intros out Hall; simpl.
  - rewrite app_nil_r. reflexivity.
  - apply Forall_cons in Hall as [Hws Hall].
    destruct ws as [|header rows]; [congruence|].
    rewrite IH by exact Hall. rewrite <- app_assoc. reflexivity.
Qed.

Lemma write_sheets_empty_sheet (pre post : list (list line)) (out : list line) :
  Forall (λ ws, ws ≠ []) pre →
  write_sheets (pre ++ [] :: post) true out
  = (out ++ concat (tail <$> pre), StopIteration).
Proof.
  revert out. induction pre as [|ws pre IH]; intros out Hall; simpl.
  - rewrite app_nil_r. reflexivity.
  - apply Forall_cons in Hall as [Hws Hall].
    destruct ws as [|header rows]; [congruence|].
    rewrite IH by exact Hall. rewrite <- app_assoc. reflexivity.
Qed.

(** X16. When every sheet has a header row, the output file is the
    first sheet in full followed by the rows of each later sheet without
    its first row: the header of a later sheet is dropped without being
    compared with the first one.  A workbook without sheets gives an
    empty file. *)
Theorem converted_file_content (workbook : list (list line)) :
  Forall (λ ws, ws ≠ []) workbook →
  main workbook
  = (match workbook with
     | [] => []
     | first :: later => first ++ concat (tail <$> later)
     end, Done).
Proof.
  intros Hall. unfold main. destruct workbook as [|first later]; [reflexivity|].
  apply Forall_cons in Hall as [Hfirst Hall].
  destruct first as [|header rows]; [congruence|]. simpl.
  rewrite write_sheets_after_header by exact Hall. reflexivity.
Qed.

(** X17. A sheet without any row stops the conversion with
    StopIteration; what the sheets before it produced has been written,
    and nothing of the sheets after it. *)
Theorem empty_sheet_stops_conversion (pre post : list (list line)) :
  Forall (λ ws, ws ≠ []) pre →
  main (pre ++ [] :: post)
  = (match pre with
     | [] => []
     | first :: later => first ++ concat (tail <$> later)
     end, StopIteration).
Proof.
  intros Hall. unfold main. destruct pre as [|first later]; [reflexivity|].
  apply Forall_cons in Hall as [Hfirst Hall].
  destruct first as [|header rows]; [congruence|]. simpl.
  rewrite write_sheets_empty_sheet by exact Hall. reflexivity.
Qed.

End ConvertXlsxFacts.

Lemma converted_file_content_witness :
  ConvertXlsx.main [["h"; "a"; "b"]; ["g"; "c"]]
  = (["h"; "a"; "b"; "c"], ConvertXlsx.Done).
Proof.
  apply (converted_file_content [["h"; "a"; "b"]; ["g"; "c"]]).
  repeat constructor; discriminate.
Defined.

Lemma empty_sheet_stops_conversion_witness :
  ConvertXlsx.main ([["h"; "a"]] ++ [] :: [["g"; "c"]])
  = (["h"; "a"], ConvertXlsx.StopIteration).
Proof.
  apply (empty_sheet_stops_conversion [["h"; "a"]] [["g"; "c"]]).
  repeat constructor; discriminate.
Defined.

(** ** Facts about dash_app/app.py *)

Section DashAppFacts.
Import DashApp.

Lemma first_existing_from_spec (exists_ : string → bool) (all rest : list string) :
  match first_existing_from exists_ all rest with
  | Found p =>
      ∃ i, rest !! i = Some p ∧ exists_ p = true ∧
           ∀ j q, (j < i)%nat → rest !! j = Some q → exists_ q = false
  | FileNotFoundError msg =>
      msg = "None of these files exist: " +:+ TrainCluster.repr_list all ∧
      ∀ q, q ∈ rest → exists_ q = false
  end.
Proof.
  induction rest as [|p rest IH]; simpl.
  - split; [reflexivity | intros q Hq; inversion Hq].
  - destruct (exists_ p) eqn:Hp.
    + exists 0%nat. repeat split; auto. intros j q Hj. lia.
    + destruct (first_existing_from exists_ all rest) as [p'|msg].
      * destruct IH as (i & Hi & Hex & Hfirst).
        exists (S i). repeat split; auto.
        intros [|j] q Hj; simpl; [intros [= <-]; exact Hp | apply Hfirst; lia].
      * destruct IH as [Hmsg Hnone]. split; [exact Hmsg|].
        intros q [->|Hq]%elem_of_cons; [exact Hp | apply Hnone, Hq].
Qed.

(** X18. [_first_existing] returns the first path of the list, in list
    order, that exists; it raises FileNotFoundError, naming all the
    paths, exactly when none of them exists. *)
Theorem first_existing_is_first (exists_ : string → bool) (paths : list string) :
  (∀ p, _first_existing exists_ paths = Found p →
     ∃ i, paths !! i = Some p ∧ exists_ p = true ∧
          ∀ j q, (j < i)%nat → paths !! j = Some q → exists_ q = false) ∧
  ((∀ q, q ∈ paths → exists_ q = false) ↔
   _first_existing exists_ paths
   = FileNotFoundError ("None of these files exist: " +:+ TrainCluster.repr_list paths)).
Proof.
  unfold _first_existing.
  pose proof (first_existing_from_spec exists_ paths paths) as Hspec.
  destruct (first_existing_from exists_ paths paths) as [p|msg].
  - destruct Hspec as (i & Hi & Hex & Hfirst). split.
    + intros p' [= <-]. eauto.
    + split; [|discriminate]. intros Hnone. exfalso.
      rewrite Hnone in Hex; [discriminate|]. apply list_elem_of_lookup. eauto.
  - destruct Hspec as [-> Hnone]. split; [discriminate|].
    split; [reflexivity | intros _; exact Hnone].
Qed.

(** The dict keeps, for each key, the last column that has it. *)
Lemma cols_norm_last (cols : list string) (key c : string) :
  cols_norm cols !! key = Some c ↔
  ∃ pre post, cols = pre ++ c :: post ∧ norm_key c = key ∧
              ∀ c', c' ∈ post → norm_key c' ≠ key.
Proof. apply (keyed_dict_last norm_key). Qed.

Lemma cols_norm_snoc (cols : list string) (c : string) :
  cols_norm (cols ++ [c]) = <[norm_key c := c]> (cols_norm cols).
Proof. unfold cols_norm. rewrite foldl_app. reflexivity. Qed.

(** X19. [_coalesce_column] goes by the order of the candidates, not of
    the columns: it returns a column whose key (lower case, spaces and
    underscores removed) equals the key of the first candidate that has
    such a column, and of the columns with that key the last one; it
    returns None exactly when no candidate has a column with its key. *)
Theorem coalesce_column_priority (cols candidates : list string) :
  (∀ c, _coalesce_column cols candidates = Some c →
     ∃ i cand pre post,
       candidates !! i = Some cand ∧
       cols = pre ++ c :: post ∧
       norm_key c = norm_key cand ∧
       (∀ c', c' ∈ post → norm_key c' ≠ norm_key cand) ∧
       ∀ j cand' c', (j < i)%nat → candidates !! j = Some cand' → c' ∈ cols →
                     norm_key c' ≠ norm_key cand') ∧
  (_coalesce_column cols candidates = None ↔
   ∀ cand c, cand ∈ candidates → c ∈ cols → norm_key c ≠ norm_key cand).
Proof.
  unfold _coalesce_column.
  assert (Hnone : ∀ key, cols_norm cols !! key = None ↔
                         ∀ c, c ∈ cols → norm_key c ≠ key).
  { intros key. split.
    - intros Hn c Hc Hk.
      apply list_elem_of_split in Hc as (pre & post & ->).
      assert (His : is_Some (cols_norm (pre ++ c :: post) !! key)).
      { clear Hn. induction post as [|y post IHp] using rev_ind.
        - rewrite cols_norm_snoc, Hk, lookup_insert_eq. eauto.
        - rewrite app_comm_cons, app_assoc, cols_norm_snoc, lookup_insert.
          case_decide; [eauto | exact IHp]. }
      rewrite Hn in His. destruct His as [? [=]].
    - intros Hall. destruct (cols_norm cols !! key) as [c|] eqn:E; [|reflexivity].
      apply cols_norm_last in E as (pre & post & -> & Hk & _).
      exfalso. apply (Hall c); [|exact Hk].
      apply elem_of_app. right. left. }
  induction candidates as [|cand rest IH]; simpl.
  - split; [discriminate|]. split; [|reflexivity].
    intros _ cand c Hc. inversion Hc.
  - destruct (cols_norm cols !! norm_key cand) as [c0|] eqn:E.
    + split.
      * intros c [= <-].
        apply cols_norm_last in E as (pre & post & Hsplit & Hk & Hlast).
        exists 0%nat, cand, pre, post. repeat split; auto.
        intros j cand' c' Hj. lia.
      * split; [discriminate|]. intros Hall. exfalso.
        apply cols_norm_last in E as (pre & post & -> & Hk & _).
        apply (Hall cand c0); [left | apply elem_of_app; right; left | exact Hk].
    + destruct IH as [IHsome IHnone]. split.
      * intros c Hc.
        destruct (IHsome c Hc) as (i & cand1 & pre & post & Hi & Hs & Hk & Hl & Hf).
        exists (S i), cand1, pre, post. repeat split; auto.
        intros [|j] cand' c' Hj; simpl.
        -- intros [= <-] Hc'. apply (proj1 (Hnone _) E), Hc'.
        -- apply Hf. lia.
      * rewrite IHnone. split.
        -- intros Hall cand' c [->|Hin]%elem_of_cons Hc;
             [apply (proj1 (Hnone _) E), Hc | apply Hall; assumption].
        -- intros Hall cand' c Hin Hc. apply Hall; [right; exact Hin | exact Hc].
Qed.

End DashAppFacts.

Lemma first_existing_is_first_witness :
  let exists_ := λ p, String.eqb p "customers_rfm.csv" in
  let paths := ["customers_rfm_scored.csv"; "customers_rfm.csv"] in
  ∃ i, paths !! i = Some "customers_rfm.csv" ∧ exists_ "customers_rfm.csv" = true ∧
       ∀ j q, (j < i)%nat → paths !! j = Some q → exists_ q = false.
Proof.
  apply (proj1 (first_existing_is_first
                  (λ p, String.eqb p "customers_rfm.csv")
                  ["customers_rfm_scored.csv"; "customers_rfm.csv"])).
  vm_compute. reflexivity.
Defined.

Lemma coalesce_column_priority_witness :
  ∃ i cand pre post,
    ["Monetary"; "MonetaryValue"; "Revenue"; "Spend"] !! i = Some cand ∧
    ["Revenue"; "monetary"; "Monetary"] = pre ++ "Monetary" :: post ∧
    DashApp.norm_key "Monetary" = DashApp.norm_key cand ∧
    (∀ c', c' ∈ post → DashApp.norm_key c' ≠ DashApp.norm_key cand) ∧
    ∀ j cand' c', (j < i)%nat →
       ["Monetary"; "MonetaryValue"; "Revenue"; "Spend"] !! j = Some cand' →
       c' ∈ ["Revenue"; "monetary"; "Monetary"] →
       DashApp.norm_key c' ≠ DashApp.norm_key cand'.
Proof.
  apply (proj1 (coalesce_column_priority ["Revenue"; "monetary"; "Monetary"]
                  ["Monetary"; "MonetaryValue"; "Revenue"; "Spend"])).
  vm_compute. reflexivity.
Defined.
